(** * docalign: TF-IDF document alignment with a bounded work queue

    A shallow embedding of [src/main.cpp] and [src/document.h].

    The program has two phases.  The first is sequential: it reads the
    reference documents, counts document frequencies and turns every
    document into a sorted score vector.  The second is concurrent: the
    main thread streams candidate documents into a [blocking_queue] while
    [n_threads] consumer threads pop them and score them against every
    reference document.

    Modelling conventions.
    - [size_t] values (counters, document frequencies, the hit counter)
      are integers in [Z] with the wrap-around at [2^64] written out.
    - [float] arithmetic is kept abstract behind the class [FloatArith]:
      the development never assumes associativity or exactness, so every
      result holds for IEEE single precision as well as for the integer
      instance used in the examples.
    - A thread is an explicit program counter.  Everything a thread does
      between two synchronisation points is one atomic step; the critical
      section of a queue operation (the part under [_mutex]) is one step,
      and a thread that waits on a condition variable is a thread whose
      step is not enabled. *)

From Equations Require Import Equations.
From stdpp Require Import gmap strings list fin_maps sorting.

Local Open Scope Z_scope.

(** ** Machine integers and floating point *)

(** [size_t] on the 64-bit targets the project builds for. *)
Definition SIZE_MOD : Z := 2 ^ 64.

(** [++x] and [x += 1] on a [size_t]. *)
Definition size_incr (x : Z) : Z := (x + 1) `mod` SIZE_MOD.

(** The operations of C++ [float] that the program uses: the literal [0],
    [+], [*] and [>=]. *)
Class FloatArith := {
  float : Type;
  fzero : float;
  fadd : float → float → float;
  fmul : float → float → float;
  fge : float → float → bool
}.

(** ** The bounded queue ([main.cpp], lines 24-77) *)

(** The data members of [blocking_queue<T>]; the mutex and the two
    condition variables are the scheduling discipline described at the
    top of the file. *)
Record blocking_queue (T : Type) := {
  _size : Z;
  _buffer : list T
}.
Arguments _size {T} _.
Arguments _buffer {T} _.

(** The constructor: [_size(size)] and an empty [_buffer]. *)
Definition new_queue {T} (size : Z) : blocking_queue T :=
  {| _size := size; _buffer := [] |}.

(** [push]: [None] while [_buffer.size() >= _size] (the caller waits on
    [_removed]); otherwise the item goes to the back. *)
Definition push {T} (item : T) (q : blocking_queue T) : option (blocking_queue T) :=
  if decide (_size q ≤ Z.of_nat (length (_buffer q))) then None
  else Some {| _size := _size q; _buffer := _buffer q ++ [item] |}.

(** [pop]: [None] while [_buffer.empty()] (the caller waits on [_added]);
    otherwise the front item is removed and returned. *)
Definition pop {T} (q : blocking_queue T) : option (T * blocking_queue T) :=
  match _buffer q with
  | [] => None
  | value :: rest => Some (value, {| _size := _size q; _buffer := rest |})
  end.

(** A completed queue operation, as seen from outside. *)
Inductive queue_event (T : Type) :=
  | Pushed (item : T)
  | Popped (item : T).
Arguments Pushed {T} _.
Arguments Popped {T} _.

(** One completed operation of some thread on the queue. *)
Inductive queue_step {T} : blocking_queue T → queue_event T → blocking_queue T → Prop :=
  | queue_step_push q item q' :
      push item q = Some q' → queue_step q (Pushed item) q'
  | queue_step_pop q item q' :
      pop q = Some (item, q') → queue_step q (Popped item) q'.

(** A history of completed operations, oldest first. *)
Inductive queue_run {T} (q0 : blocking_queue T)
    : list (queue_event T) → blocking_queue T → Prop :=
  | queue_run_nil : queue_run q0 [] q0
  | queue_run_snoc history q e q' :
      queue_run q0 history q → queue_step q e q' →
      queue_run q0 (history ++ [e]) q'.

Definition pushed_items {T} (history : list (queue_event T)) : list T :=
  omap (λ e, match e with Pushed x => Some x | Popped _ => None end) history.

Definition popped_items {T} (history : list (queue_event T)) : list T :=
  omap (λ e, match e with Popped x => Some x | Pushed _ => None end) history.

(** Replay of a list of operation requests on a queue, for the examples:
    the history of the operations that completed, or [None] when one of
    them would wait forever. *)
Inductive queue_op (T : Type) :=
  | DoPush (item : T)
  | DoPop.
Arguments DoPush {T} _.
Arguments DoPop {T}.

Fixpoint queue_replay {T} (ops : list (queue_op T)) (q : blocking_queue T)
    : option (list (queue_event T) * blocking_queue T) :=
  match ops with
  | [] => Some ([], q)
  | DoPush item :: ops' =>
    q' ← push item q;
    '(history, q'') ← queue_replay ops' q';
    Some (Pushed item :: history, q'')
  | DoPop :: ops' =>
    '(item, q') ← pop q;
    '(history, q'') ← queue_replay ops' q';
    Some (Popped item :: history, q'')
  end.

Section Model.
Context `{FloatArith}.

(** ** Data model ([document.h]) *)

(** [struct WordScore].  The hash is a [uint64_t]; the program only
    compares hashes, so it is a natural number without its bound. *)
Record WordScore := { hash : N; tfidf : float }.

(** The document type as [main.cpp] uses it: one object carries the label
    ([url]), the n-gram frequencies ([vocab], a [std::map] from hash to
    [size_t] count, so keys are unique) and the score vector ([wordvec]).
    [document.h] splits the same fields over [Document] and
    [DocumentRef]. *)
Record Document := {
  url : string;
  vocab : gmap N Z;
  wordvec : list WordScore
}.

(** [document.vocab.clear()]. *)
Definition clear_vocab (document : Document) : Document :=
  {| url := url document; vocab := ∅; wordvec := wordvec document |}.

(** [Document()], the value the [stop] lambda pushes as poison. *)
Definition poison : Document := {| url := ""; vocab := ∅; wordvec := [] |}.

(** [buffer.wordvec.empty()]. *)
Definition wordvec_empty (buffer : Document) : bool :=
  match wordvec buffer with [] => true | _ :: _ => false end.

(** ** Alignment scorer *)

(** Modelled from the spec: the body of [calculate_alignment], which
    [document.h] only declares.  Section 4.3 of the specification: two
    cursors walk the two weight sequences; on equal hashes the product of
    the two weights is added to the running total and both cursors
    advance; otherwise the cursor at the smaller hash advances; the walk
    ends when either sequence is exhausted. *)
Equations? alignment_loop (lit rit : list WordScore) (score : float) : float
  by wf (length lit + length rit)%nat lt :=
  alignment_loop [] _ score := score;
  alignment_loop _ [] score := score;
  alignment_loop (l :: lit') (r :: rit') score with N.compare (hash l) (hash r) => {
    | Eq := alignment_loop lit' rit' (fadd score (fmul (tfidf l) (tfidf r)));
    | Lt := alignment_loop lit' (r :: rit') score;
    | Gt := alignment_loop (l :: lit') rit' score }.
Proof. all: simpl; lia. Qed.

(** Modelled from the spec: [calculate_alignment] starts the walk of
    section 4.3 with a running total of zero. *)
Definition calculate_alignment (left right : Document) : float :=
  alignment_loop (wordvec left) (wordvec right) fzero.

(** The reading of "the sum over the shared term hashes of the product of
    the two weights" that the scorer is compared with: the weight that a
    sequence gives to a hash, the products for the hashes of [a] that also
    occur in [b], and their sum accumulated from zero in sequence order. *)
Definition weight_of (h : N) (v : list WordScore) : option float :=
  tfidf <$> List.find (λ e, bool_decide (hash e = h)) v.

Definition shared_products (a b : list WordScore) : list float :=
  omap (λ x, fmul (tfidf x) <$> weight_of (hash x) b) a.

Definition sum_from (score : float) (ps : list float) : float :=
  foldl fadd score ps.

(** A weight sequence sorted ascending by term hash without duplicates. *)
Definition sorted_by_hash (v : list WordScore) : Prop :=
  StronglySorted N.lt (hash <$> v).

(** ** TF-IDF transformer *)

(** [calculate_tfidf(document, document_count, df)] is declared in
    [document.h] and defined outside the sources at hand, and the
    weighting formula is left open.  The main program only depends on
    what the call leaves in the document it is given by reference, so the
    transformer is a parameter: a function from the document, the
    document count and the (read-only) frequency table to the updated
    document. *)
Class Transformer := {
  calculate_tfidf : Document → Z → gmap N Z → Document
}.

Context `{Transformer}.

(** ** Phase 1: the reference corpus ([main.cpp], lines 115-155) *)

(** What the program writes to [std::cerr]. *)
Inductive message :=
  | ReadDocuments (count : Z)            (* "Read <count> documents" *)
  | AggregatedDF                         (* "Aggregated DF" *)
  | CalculatedTFIDF                      (* "Calculated translated TFIDF scores" *)
  | ErrorReadingUrlRef (index : Z)       (* line 126 *)
  | ErrorReadingUrl (index : Z)          (* line 211 *)
  | EmptyVocab (index : Z)               (* line 219 *)
  | EmptyWordVec (index : Z).            (* line 231 *)

(** Lines 124-131.  The token stream yields one parsed [vocab] per
    document, the label stream one word per document.  The loop stops at
    the end of the token stream; a missing label is the error of line 126
    and carries [documents.size()]. *)
Fixpoint read_documents (tokens_in : list (gmap N Z)) (urls_in : list string)
    (documents : list Document) : Z + list Document :=
  match tokens_in with
  | [] => inr documents
  | v :: tokens_in' =>
    match urls_in with
    | [] => inl (Z.of_nat (length documents))
    | u :: urls_in' =>
      read_documents tokens_in' urls_in'
        (documents ++ [{| url := u; vocab := v; wordvec := [] |}])
    end
  end.

(** [df[entry.first] += 1]: [operator[]] creates a missing entry as 0. *)
Definition df_incr (term : N) (df : gmap N Z) : gmap N Z :=
  <[term := size_incr (default 0 (df !! term))]> df.

(** Line 140-141: one pass over the entries of a document's [vocab]. *)
Definition df_add_document (df : gmap N Z) (document : Document) : gmap N Z :=
  map_fold (λ term _ df, df_incr term df) df (vocab document).

(** Lines 137-141. *)
Definition aggregate_df (documents : list Document) : gmap N Z :=
  foldl df_add_document ∅ documents.

(** The number of documents whose [vocab] has an entry for [term]. *)
Definition document_frequency (term : N) (documents : list Document) : nat :=
  length (filter (λ document, is_Some (vocab document !! term)) documents).

(** Lines 147-153: every reference document is transformed with the
    finished table and the corpus size, then its [vocab] is cleared. *)
Definition transform_documents (documents : list Document) (df : gmap N Z)
    : list Document :=
  (λ document,
     clear_vocab (calculate_tfidf document (Z.of_nat (length documents)) df))
  <$> documents.

(** The state of the first phase, threaded through its three passes. *)
Record corpus := {
  c_documents : list Document;
  c_df : gmap N Z;
  c_cerr : list message
}.

Definition aggregate_pass (c : corpus) : corpus :=
  {| c_documents := c_documents c;
     c_df := foldl df_add_document (c_df c) (c_documents c);
     c_cerr := c_cerr c ++ [AggregatedDF] |}.

Definition transform_pass (c : corpus) : corpus :=
  {| c_documents := transform_documents (c_documents c) (c_df c);
     c_df := c_df c;
     c_cerr := c_cerr c ++ [CalculatedTFIDF] |}.

(** Lines 117-155.  [inl] is the early [return 2] with what was written
    to [cerr]. *)
Definition load_corpus (tokens_in : list (gmap N Z)) (urls_in : list string)
    : list message + corpus :=
  match read_documents tokens_in urls_in [] with
  | inl index => inl [ErrorReadingUrlRef index]
  | inr documents =>
    inr (transform_pass (aggregate_pass
      {| c_documents := documents;
         c_df := ∅;
         c_cerr := [ReadDocuments (Z.of_nat (length documents))] |}))
  end.

(** ** Phase 2: producer and consumers ([main.cpp], lines 157-244) *)

(** A consumer thread (the lambda of lines 176-192). *)
Inductive worker :=
  | WPop                                   (* line 178, about to pop *)
  | WScore (buffer : Document) (todo : list Document)
                                           (* line 184, [todo] still to score *)
  | WExit.                                 (* line 182, left the loop *)

(** What follows a call of [stop()]. *)
Inductive continuation :=
  | Return (status : Z)                    (* lines 213, 221, 233 *)
  | Tada.                                  (* lines 242-243 *)

(** The main thread. *)
Inductive main_pc :=
  | MRead (en_tokens_in : list (gmap N Z)) (en_urls_in : list string) (n : Z)
                                           (* line 204, top of the loop *)
  | MPush (buffer : Document)
      (en_tokens_in : list (gmap N Z)) (en_urls_in : list string) (n : Z)
                                           (* line 237 *)
  | MPoison (k : nat) (after : continuation)
                                           (* line 196, loop counter [k] *)
  | MJoin (j : nat) (after : continuation) (* line 200, next to join *)
  | MExit (status : Z).                    (* [main] has returned *)

(** Everything the threads of the second phase can see.  [documents],
    [df], [threshold] and [n_threads] are locals of [main] that the
    lambdas capture; [hits] is the [atomic<size_t>]. *)
Record system := {
  main_thread : main_pc;
  documents : list Document;
  df : gmap N Z;
  threshold : float;
  n_threads : nat;
  queue : blocking_queue Document;
  consumers : list worker;
  hits : Z;
  cerr : list message;
  cout : list Z
}.

Definition set_main (pc : main_pc) (s : system) : system :=
  {| main_thread := pc; documents := documents s; df := df s;
     threshold := threshold s; n_threads := n_threads s; queue := queue s;
     consumers := consumers s; hits := hits s; cerr := cerr s; cout := cout s |}.

Definition set_queue (q : blocking_queue Document) (s : system) : system :=
  {| main_thread := main_thread s; documents := documents s; df := df s;
     threshold := threshold s; n_threads := n_threads s; queue := q;
     consumers := consumers s; hits := hits s; cerr := cerr s; cout := cout s |}.

Definition set_consumer (i : nat) (w : worker) (s : system) : system :=
  {| main_thread := main_thread s; documents := documents s; df := df s;
     threshold := threshold s; n_threads := n_threads s; queue := queue s;
     consumers := <[i := w]> (consumers s); hits := hits s; cerr := cerr s;
     cout := cout s |}.

Definition set_hits (h : Z) (s : system) : system :=
  {| main_thread := main_thread s; documents := documents s; df := df s;
     threshold := threshold s; n_threads := n_threads s; queue := queue s;
     consumers := consumers s; hits := h; cerr := cerr s; cout := cout s |}.

Definition write_cerr (m : message) (s : system) : system :=
  {| main_thread := main_thread s; documents := documents s; df := df s;
     threshold := threshold s; n_threads := n_threads s; queue := queue s;
     consumers := consumers s; hits := hits s; cerr := cerr s ++ [m];
     cout := cout s |}.

Definition write_cout (h : Z) (s : system) : system :=
  {| main_thread := main_thread s; documents := documents s; df := df s;
     threshold := threshold s; n_threads := n_threads s; queue := queue s;
     consumers := consumers s; hits := hits s; cerr := cerr s;
     cout := cout s ++ [h] |}.

(** Lines 205-235: one turn of the candidate loop up to the next queue
    operation.  The document counter [n] is a [size_t]. *)
Definition read_candidate (en_tokens_in : list (gmap N Z))
    (en_urls_in : list string) (n : Z) (s : system) : system :=
  match en_tokens_in with
  | [] => set_main (MPoison 0 Tada) s
  | v :: en_tokens_in' =>
    match en_urls_in with
    | [] => set_main (MPoison 0 (Return 3)) (write_cerr (ErrorReadingUrl n) s)
    | u :: en_urls_in' =>
      let n' := size_incr n in
      let buffer := {| url := u; vocab := v; wordvec := [] |} in
      if decide (vocab buffer = ∅) then
        set_main (MPoison 0 (Return 4)) (write_cerr (EmptyVocab n') s)
      else
        let buffer :=
          clear_vocab
            (calculate_tfidf buffer (Z.of_nat (length (documents s))) (df s)) in
        if wordvec_empty buffer then
          set_main (MPoison 0 (Return 5)) (write_cerr (EmptyWordVec n') s)
        else set_main (MPush buffer en_tokens_in' en_urls_in' n') s
    end
  end.

(** What [main] does once [stop()] has returned. *)
Definition finish (after : continuation) (s : system) : system :=
  match after with
  | Return status => set_main (MExit status) s
  | Tada => set_main (MExit 0) (write_cout (hits s) s)
  end.

(** What an observer sees of one step. *)
Inductive event :=
  | Tau
  | Push (item : Document)
  | Pop (i : nat) (item : Document)
  | Score (i : nat) (document buffer : Document) (hit : bool)
  | Join (i : nat).

(** One step of the main thread; [None] when it waits (full queue,
    consumer not finished) or has returned. *)
Definition main_step (s : system) : option (event * system) :=
  match main_thread s with
  | MRead en_tokens_in en_urls_in n =>
    Some (Tau, read_candidate en_tokens_in en_urls_in n s)
  | MPush buffer en_tokens_in en_urls_in n =>
    q' ← push buffer (queue s);
    Some (Push buffer, set_main (MRead en_tokens_in en_urls_in n) (set_queue q' s))
  | MPoison k after =>
    if decide (k < n_threads s)%nat then
      q' ← push poison (queue s);
      Some (Push poison, set_main (MPoison (S k) after) (set_queue q' s))
    else Some (Tau, set_main (MJoin 0 after) s)
  | MJoin j after =>
    match consumers s !! j with
    | Some WExit => Some (Join j, set_main (MJoin (S j) after) s)
    | Some _ => None
    | None => Some (Tau, finish after s)
    end
  | MExit _ => None
  end.

(** One step of consumer [i]; [None] when it waits on an empty queue or
    has finished. *)
Definition worker_step (i : nat) (s : system) : option (event * system) :=
  match consumers s !! i with
  | Some WPop =>
    '(buffer, q') ← pop (queue s);
    Some (Pop i buffer,
          set_consumer i
            (if wordvec_empty buffer then WExit else WScore buffer (documents s))
            (set_queue q' s))
  | Some (WScore buffer (document :: todo)) =>
    let score := calculate_alignment document buffer in
    let hit := fge score (threshold s) in
    Some (Score i document buffer hit,
          set_consumer i (WScore buffer todo)
            (set_hits (if hit then size_incr (hits s) else hits s) s))
  | Some (WScore buffer []) => Some (Tau, set_consumer i WPop s)
  | Some WExit | None => None
  end.

Inductive thread :=
  | Main
  | Consumer (i : nat).

Definition thread_step (t : thread) (s : system) : option (event * system) :=
  match t with
  | Main => main_step s
  | Consumer i => worker_step i s
  end.

(** Runs of the system: the events so far, oldest first, and the state
    reached. *)
Inductive run (s0 : system) : list event → system → Prop :=
  | run_nil : run s0 [] s0
  | run_snoc events s t e s' :
      run s0 events s → thread_step t s = Some (e, s') →
      run s0 (events ++ [e]) s'.

(** Replay of a schedule, for the examples: a thread that cannot move
    when its turn comes is skipped. *)
Fixpoint drive (schedule : list thread) (s : system) : list event * system :=
  match schedule with
  | [] => ([], s)
  | t :: schedule' =>
    match thread_step t s with
    | Some (e, s') =>
      let '(events, s'') := drive schedule' s' in (e :: events, s'')
    | None => drive schedule' s
    end
  end.

(** [budget] rounds of the main thread followed by every consumer. *)
Definition round_robin (budget n_threads : nat) : list thread :=
  mjoin (replicate budget (Main :: (Consumer <$> seq 0 n_threads))).

(** Lines 165-173: the state in which the second phase starts. *)
Definition start (c : corpus) (en_tokens_in : list (gmap N Z))
    (en_urls_in : list string) (threshold : float) (n_threads : nat) : system :=
  {| main_thread := MRead en_tokens_in en_urls_in 0;
     documents := c_documents c;
     df := c_df c;
     threshold := threshold;
     n_threads := n_threads;
     queue := new_queue ((Z.of_nat n_threads * 4) `mod` SIZE_MOD);
     consumers := replicate n_threads WPop;
     hits := 0;
     cerr := c_cerr c;
     cout := [] |}.

(** The inputs of a run: the four streams and the threshold option. *)
Record input := {
  translated_tokens : list (gmap N Z);
  translated_urls : list string;
  english_tokens : list (gmap N Z);
  english_urls : list string;
  opt_threshold : float
}.

(** What a finished process leaves behind. *)
Record outcome := {
  status : Z;
  written_cerr : list message;
  written_cout : list Z
}.

(** [main] from line 115 on, with [n_threads = 4] (line 171): either the
    early [return 2], or a run of the second phase up to [MExit]. *)
Inductive main : input → outcome → Prop :=
  | main_return_2 i messages :
      load_corpus (translated_tokens i) (translated_urls i) = inl messages →
      main i {| status := 2; written_cerr := messages; written_cout := [] |}
  | main_phase_2 i c events s code :
      load_corpus (translated_tokens i) (translated_urls i) = inr c →
      run (start c (english_tokens i) (english_urls i) (opt_threshold i) 4)
        events s →
      main_thread s = MExit code →
      main i {| status := code; written_cerr := cerr s; written_cout := cout s |}.

(** ** Notions used to state the properties *)

(** The steps of the system as a relation, one rule per case of
    [main_step] and [worker_step]. *)
Inductive step (s : system) : event → system → Prop :=
  | step_read en_tokens_in en_urls_in n :
      main_thread s = MRead en_tokens_in en_urls_in n →
      step s Tau (read_candidate en_tokens_in en_urls_in n s)
  | step_push buffer en_tokens_in en_urls_in n q' :
      main_thread s = MPush buffer en_tokens_in en_urls_in n →
      push buffer (queue s) = Some q' →
      step s (Push buffer)
        (set_main (MRead en_tokens_in en_urls_in n) (set_queue q' s))
  | step_poison k after q' :
      main_thread s = MPoison k after →
      (k < n_threads s)%nat →
      push poison (queue s) = Some q' →
      step s (Push poison) (set_main (MPoison (S k) after) (set_queue q' s))
  | step_poisoned k after :
      main_thread s = MPoison k after →
      ¬ (k < n_threads s)%nat →
      step s Tau (set_main (MJoin 0 after) s)
  | step_join j after :
      main_thread s = MJoin j after →
      consumers s !! j = Some WExit →
      step s (Join j) (set_main (MJoin (S j) after) s)
  | step_finish j after :
      main_thread s = MJoin j after →
      consumers s !! j = None →
      step s Tau (finish after s)
  | step_pop i buffer q' :
      consumers s !! i = Some WPop →
      pop (queue s) = Some (buffer, q') →
      step s (Pop i buffer)
        (set_consumer i
           (if wordvec_empty buffer then WExit else WScore buffer (documents s))
           (set_queue q' s))
  | step_score i buffer document todo :
      consumers s !! i = Some (WScore buffer (document :: todo)) →
      step s
        (Score i document buffer
           (fge (calculate_alignment document buffer) (threshold s)))
        (set_consumer i (WScore buffer todo)
           (set_hits
              (if fge (calculate_alignment document buffer) (threshold s)
               then size_incr (hits s) else hits s) s))
  | step_next i buffer :
      consumers s !! i = Some (WScore buffer []) →
      step s Tau (set_consumer i WPop s).

(** The pure part of [read_candidate]: where the main thread goes and
    what it writes to [cerr]. *)
Definition turn (documents : list Document) (df : gmap N Z)
    (en_tokens_in : list (gmap N Z)) (en_urls_in : list string) (n : Z)
    : main_pc * list message :=
  match en_tokens_in with
  | [] => (MPoison 0 Tada, [])
  | v :: en_tokens_in' =>
    match en_urls_in with
    | [] => (MPoison 0 (Return 3), [ErrorReadingUrl n])
    | u :: en_urls_in' =>
      let n' := size_incr n in
      if decide (v = ∅) then (MPoison 0 (Return 4), [EmptyVocab n'])
      else
        let buffer :=
          clear_vocab
            (calculate_tfidf {| url := u; vocab := v; wordvec := [] |}
               (Z.of_nat (length documents)) df) in
        if wordvec_empty buffer then (MPoison 0 (Return 5), [EmptyWordVec n'])
        else (MPush buffer en_tokens_in' en_urls_in' n', [])
    end
  end.

(** The candidate as it is pushed: transformed with the table and the
    corpus size, [vocab] cleared. *)
Definition candidate (documents : list Document) (df : gmap N Z)
    (u : string) (v : gmap N Z) : Document :=
  clear_vocab
    (calculate_tfidf {| url := u; vocab := v; wordvec := [] |}
       (Z.of_nat (length documents)) df).

(** The whole candidate loop seen from the main thread alone: the
    documents it pushes, how it leaves the loop and what it writes to
    [cerr] on the way. *)
Fixpoint candidate_loop (documents : list Document) (df : gmap N Z)
    (en_tokens_in : list (gmap N Z)) (en_urls_in : list string) (n : Z)
    : list Document * continuation * list message :=
  match en_tokens_in with
  | [] => ([], Tada, [])
  | v :: en_tokens_in' =>
    match en_urls_in with
    | [] => ([], Return 3, [ErrorReadingUrl n])
    | u :: en_urls_in' =>
      let n' := size_incr n in
      if decide (v = ∅) then ([], Return 4, [EmptyVocab n'])
      else
        let buffer := candidate documents df u v in
        if wordvec_empty buffer then ([], Return 5, [EmptyWordVec n'])
        else
          let '(pushed, after, messages) :=
            candidate_loop documents df en_tokens_in' en_urls_in' n' in
          (buffer :: pushed, after, messages)
    end
  end.

(** A candidate that passes both guards of the loop (lines 218 and 230). *)
Definition passes_guards (documents : list Document) (df : gmap N Z)
    (u : string) (v : gmap N Z) : Prop :=
  v ≠ ∅ ∧ wordvec_empty (candidate documents df u v) = false.

(** A document as the first loop stores it (line 130). *)
Definition as_read (u : string) (v : gmap N Z) : Document :=
  {| url := u; vocab := v; wordvec := [] |}.

(** The exit status that a continuation leads to. *)
Definition status_of (after : continuation) : Z :=
  match after with
  | Return status => status
  | Tada => 0
  end.

(** What the main thread still has to push, the status it will exit with
    and what it still has to write to [cerr]. *)
Definition plan (s : system) : list Document * Z * list message :=
  match main_thread s with
  | MRead en_tokens_in en_urls_in n =>
    let '(pushed, after, messages) :=
      candidate_loop (documents s) (df s) en_tokens_in en_urls_in n in
    (pushed ++ replicate (n_threads s) poison, status_of after, messages)
  | MPush buffer en_tokens_in en_urls_in n =>
    let '(pushed, after, messages) :=
      candidate_loop (documents s) (df s) en_tokens_in en_urls_in n in
    (buffer :: pushed ++ replicate (n_threads s) poison, status_of after, messages)
  | MPoison k after => (replicate (n_threads s - k) poison, status_of after, [])
  | MJoin _ after => ([], status_of after, [])
  | MExit status => ([], status, [])
  end.

(** Projections of a list of events. *)
Definition pushes (events : list event) : list Document :=
  omap (λ e, match e with Push item => Some item | _ => None end) events.

Definition queue_history (events : list event) : list (queue_event Document) :=
  omap (λ e, match e with
             | Push item => Some (Pushed item)
             | Pop _ item => Some (Popped item)
             | _ => None
             end) events.

(** The events of consumer [i]. *)
Definition by_consumer (i : nat) (e : event) : bool :=
  match e with
  | Pop j _ | Score j _ _ _ => bool_decide (j = i)
  | _ => false
  end.

Definition worker_events (i : nat) (events : list event) : list event :=
  List.filter (by_consumer i) events.

Definition poison_pop (i : nat) (e : event) : bool :=
  match e with
  | Pop j item => bool_decide (j = i) && wordvec_empty item
  | _ => false
  end.

Definition poison_pops (i : nat) (events : list event) : nat :=
  length (List.filter (poison_pop i) events).

Definition is_hit (e : event) : bool :=
  match e with
  | Score _ _ _ hit => hit
  | _ => false
  end.

Definition hit_count (events : list event) : nat :=
  length (List.filter is_hit events).

(** What consumer [i] does with one candidate: the pop, then one score
    per reference document, in corpus order. *)
Definition block (i : nat) (documents : list Document) (threshold : float)
    (buffer : Document) : list event :=
  Pop i buffer
  :: ((λ document,
         Score i document buffer
           (fge (calculate_alignment document buffer) threshold))
      <$> documents).

(** The events of consumer [i] so far, given where the consumer is now:
    whole blocks for the candidates it has finished, then the block it is
    in the middle of, or the pop of its poison. *)
Definition worker_log (i : nat) (documents : list Document) (threshold : float)
    (w : option worker) (log : list event) : Prop :=
  ∃ finished,
    Forall (λ buffer, wordvec_empty buffer = false) finished
    ∧ match w with
      | Some WPop | None => log = finished ≫= block i documents threshold
      | Some (WScore buffer todo) =>
        wordvec_empty buffer = false
        ∧ ∃ scored,
            documents = scored ++ todo
            ∧ log = (finished ≫= block i documents threshold)
                    ++ block i scored threshold buffer
      | Some WExit =>
        ∃ item,
          wordvec_empty item = true
          ∧ log = (finished ≫= block i documents threshold) ++ [Pop i item]
      end.

(** The number of reference documents that a candidate hits. *)
Definition hits_of (documents : list Document) (threshold : float)
    (buffer : Document) : nat :=
  length (List.filter
            (λ document, fge (calculate_alignment document buffer) threshold)
            documents).

(** Bookkeeping for the shutdown argument. *)
Definition running (ws : list worker) : nat :=
  sum_list_with (λ w, match w with WExit => 0 | _ => 1 end)%nat ws.

Definition poisons (buffer : list Document) : nat :=
  sum_list_with (λ item, if wordvec_empty item then 1 else 0)%nat buffer.

Definition pending_poison (s : system) : nat :=
  match main_thread s with
  | MRead _ _ _ | MPush _ _ _ _ => n_threads s
  | MPoison k _ => n_threads s - k
  | MJoin _ _ | MExit _ => 0
  end.

(** The invariant behind the shutdown protocol: there are as many
    consumers as [n_threads]; every consumer still running has its poison
    either in the buffer or still to be pushed; a document waiting to be
    pushed is not poison; the consumers already joined have finished. *)
Definition shutdown_inv (s : system) : Prop :=
  length (consumers s) = n_threads s
  ∧ running (consumers s) = (poisons (_buffer (queue s)) + pending_poison s)%nat
  ∧ match main_thread s with
    | MRead _ _ _ | MPoison _ _ => True
    | MPush buffer _ _ _ => wordvec_empty buffer = false
    | MJoin j _ => Forall (λ w, w = WExit) (take j (consumers s))
    | MExit _ => Forall (λ w, w = WExit) (consumers s)
    end.

(** One for a consumer that has left its loop, zero otherwise. *)
Definition exited_count (w : option worker) : nat :=
  match w with Some WExit => 1 | _ => 0 end.

(** The count is printed once, by the normal exit and by no other. *)
Definition cout_inv (printed : list Z) (s : system) : Prop :=
  match main_thread s with
  | MRead _ _ _ | MPush _ _ _ _ => cout s = printed
  | MPoison _ after | MJoin _ after =>
    cout s = printed ∧ (after = Tada ∨ status_of after ≠ 0)
  | MExit status =>
    cout s = printed ++ (if decide (status = 0) then [hits s] else [])
  end.

(** The consumers joined so far, in order. *)
Definition joins (events : list event) : list nat :=
  omap (λ e, match e with Join j => Some j | _ => None end) events.

Definition join_inv (s : system) (events : list event) : Prop :=
  match main_thread s with
  | MRead _ _ _ | MPush _ _ _ _ | MPoison _ _ => joins events = []
  | MJoin j _ => joins events = seq 0 j ∧ (j ≤ length (consumers s))%nat
  | MExit _ => joins events = seq 0 (length (consumers s))
  end.

(** The hits that are still to come: from the documents in the buffer,
    from the candidates the consumers are working on, and from the
    documents the main thread has yet to push.  Poison is never scored. *)
Definition contribution (documents : list Document) (threshold : float)
    (item : Document) : nat :=
  if wordvec_empty item then 0%nat else hits_of documents threshold item.

Definition pending_hits (threshold : float) (w : worker) : nat :=
  match w with
  | WScore buffer todo => hits_of todo threshold buffer
  | WPop | WExit => 0
  end.

Definition hits_to_come (s : system) : nat :=
  (sum_list_with (contribution (documents s) (threshold s)) (_buffer (queue s))
   + sum_list_with (pending_hits (threshold s)) (consumers s)
   + sum_list_with (contribution (documents s) (threshold s)) (plan s).1.1)%nat.

(** The buffer holds candidates in front of poison, no poison before the
    candidate loop is over, and no candidate once a poison was popped. *)
Definition fifo_inv (s : system) : Prop :=
  ∃ ahead k,
    _buffer (queue s) = ahead ++ replicate k poison
    ∧ Forall (λ item, wordvec_empty item = false) ahead
    ∧ match main_thread s with
      | MRead _ _ _ | MPush _ _ _ _ => k = 0%nat
      | _ => True
      end
    ∧ ((k + pending_poison s < n_threads s)%nat → ahead = []).

(** The outcome of a run as a function of its input: the program run by
    one thread that scores every candidate as soon as it is read. *)
Definition expected (i : input) : outcome :=
  match load_corpus (translated_tokens i) (translated_urls i) with
  | inl messages =>
    {| status := 2; written_cerr := messages; written_cout := [] |}
  | inr c =>
    let '(pushed, after, messages) :=
      candidate_loop (c_documents c) (c_df c)
        (english_tokens i) (english_urls i) 0 in
    {| status := status_of after;
       written_cerr := c_cerr c ++ messages;
       written_cout :=
         match after with
         | Tada =>
           [Z.of_nat
              (sum_list_with (hits_of (c_documents c) (opt_threshold i)) pushed)
            `mod` SIZE_MOD]
         | Return _ => []
         end |}
  end.

(** An upper bound on the number of steps that are left. *)
Definition item_cost (s : system) (item : Document) : nat :=
  if wordvec_empty item then 1%nat else (length (documents s) + 2)%nat.

Definition worker_cost (w : worker) : nat :=
  match w with
  | WPop | WExit => 0
  | WScore _ todo => length todo + 1
  end.

Definition join_cost (s : system) (j : nat) : nat :=
  (length (consumers s) - j + 1)%nat.

Definition poison_cost (s : system) (k : nat) : nat :=
  (2 * (n_threads s - k) + 1 + join_cost s 0)%nat.

Definition read_cost (s : system) (en_tokens_in : list (gmap N Z)) : nat :=
  (length en_tokens_in * (length (documents s) + 4) + 1 + poison_cost s 0)%nat.

Definition main_cost (s : system) : nat :=
  match main_thread s with
  | MRead en_tokens_in _ _ => read_cost s en_tokens_in
  | MPush _ en_tokens_in _ _ =>
    (length (documents s) + 3 + read_cost s en_tokens_in)%nat
  | MPoison k _ => poison_cost s k
  | MJoin j _ => join_cost s j
  | MExit _ => 0
  end.

Definition steps_left (s : system) : nat :=
  (main_cost s
   + sum_list_with (item_cost s) (_buffer (queue s))
   + sum_list_with worker_cost (consumers s))%nat.

End Model.

(** ** Further notions: what is scored, what is held, what is cleared *)

Section ModelMore.
Context `{FloatArith} `{!Transformer}.

(** A measure on the pairs (reference document, candidate) that the
    consumers score: [f] weighs a pair, the weight of a run is the sum
    over its score events, the weight of a candidate is the sum over the
    reference documents it is (still) to be scored against. *)
Definition score_weight (f : Document → Document → nat) (e : event) : nat :=
  match e with
  | Score _ document buffer _ => f document buffer
  | _ => 0%nat
  end.

Definition scored_weight (f : Document → Document → nat)
    (events : list event) : nat :=
  sum_list_with (score_weight f) events.

Definition corpus_weight (f : Document → Document → nat)
    (documents : list Document) (buffer : Document) : nat :=
  sum_list_with (λ document, f document buffer) documents.

Definition item_weight (f : Document → Document → nat)
    (documents : list Document) (item : Document) : nat :=
  if wordvec_empty item then 0%nat else corpus_weight f documents item.

Definition worker_weight (f : Document → Document → nat) (w : worker) : nat :=
  match w with
  | WScore buffer todo => corpus_weight f todo buffer
  | WPop | WExit => 0%nat
  end.

Definition weight_to_come (f : Document → Document → nat) (s : system) : nat :=
  (sum_list_with (item_weight f (documents s)) (_buffer (queue s))
   + sum_list_with (worker_weight f) (consumers s)
   + sum_list_with (item_weight f (documents s)) (plan s).1.1)%nat.

(** The consumers that hold a candidate. *)
Definition scoring (ws : list worker) : nat :=
  sum_list_with (λ w, match w with WScore _ _ => 1 | _ => 0 end)%nat ws.

(** Every document that the consumers can reach has lost its [vocab]. *)
Definition cleared (document : Document) : Prop := vocab document = ∅.

Definition cleared_inv (s : system) : Prop :=
  Forall cleared (_buffer (queue s))
  ∧ Forall (λ w, match w with
                 | WScore buffer _ => cleared buffer
                 | WPop | WExit => True
                 end) (consumers s)
  ∧ match main_thread s with
    | MPush buffer _ _ _ => cleared buffer
    | _ => True
    end.

(** The main thread is still in the candidate loop (lines 204-238). *)
Definition in_candidate_loop (s : system) : Prop :=
  match main_thread s with
  | MRead _ _ _ | MPush _ _ _ _ => True
  | MPoison _ _ | MJoin _ _ | MExit _ => False
  end.

(** The items that the consumers have popped. *)
Definition pops (events : list event) : list Document :=
  omap (λ e, match e with Pop _ item => Some item | _ => None end) events.

(** The last line written to [cerr]. *)
Definition last_line (messages : list message) : option message :=
  last messages.

End ModelMore.

(** ** A concrete instance for the examples *)

(** Fixed-point weights: integers with exact arithmetic. *)
#[export] Instance fixed_point : FloatArith :=
  {| float := Z; fzero := 0; fadd := Z.add; fmul := Z.mul; fge := Z.geb |}.

(** A small transformer: the weight of a term is its count times the
    number of reference documents that do not contain it; terms of weight
    zero are dropped; the vector is sorted by hash. *)
Definition count_weight (document_count : Z) (df : gmap N Z) (entry : N * Z)
    : WordScore :=
  {| hash := entry.1;
     tfidf := entry.2 * (document_count - default 0 (df !! entry.1)) |}.

Definition entry_le (x y : N * Z) : Prop := (x.1 ≤ y.1)%N.

#[export] Instance entry_le_dec : RelDecision entry_le :=
  λ x y, decide (x.1 ≤ y.1)%N.

Definition count_tfidf (document : Document) (document_count : Z)
    (df : gmap N Z) : Document :=
  {| url := url document;
     vocab := vocab document;
     wordvec :=
       filter (λ w, tfidf w ≠ 0)
         (count_weight document_count df <$>
            merge_sort entry_le (map_to_list (vocab document))) |}.

#[export] Instance count_transformer : Transformer :=
  {| calculate_tfidf := count_tfidf |}.

(** A [vocab] from its entries. *)
Definition bag (entries : list (N * Z)) : gmap N Z := list_to_map entries.

(** A scored document from (hash, weight) pairs. *)
Definition scored (label : string) (entries : list (N * Z)) : Document :=
  {| url := label;
     vocab := ∅;
     wordvec := (λ e : N * Z, @Build_WordScore fixed_point e.1 e.2) <$> entries |}.

(** The two weight sequences of the specification's example, scaled by
    ten: the shared hashes are 3 and 5. *)
Definition left_example : Document := scored "left" [(1%N, 5); (3%N, 2); (5%N, 9)].
Definition right_example : Document := scored "right" [(2%N, 4); (3%N, 1); (5%N, 3)].

(** Three documents; term 7 occurs five times in the first, once in the
    second and not in the third. *)
Definition three_documents : list Document :=
  [as_read "one" (bag [(7%N, 5)]);
   as_read "two" (bag [(7%N, 1); (8%N, 2)]);
   as_read "three" (bag [(8%N, 1)])].

(** A run that succeeds: three reference documents, the third without any
    term and one label too many; three candidates. *)
Definition small_input : input :=
  {| translated_tokens :=
       [bag [(1%N, 2); (2%N, 1)]; bag [(2%N, 3); (3%N, 1)]; bag []];
     translated_urls := ["a"; "b"; "c"];
     english_tokens :=
       [bag [(1%N, 1); (3%N, 1)]; bag [(3%N, 5); (9%N, 1)]; bag [(1%N, 1)]];
     english_urls := ["x"; "y"; "z"];
     opt_threshold := 5 |}.

(** The corpus of an input whose first phase succeeds. *)
Definition loaded (i : input) : corpus :=
  match load_corpus (translated_tokens i) (translated_urls i) with
  | inr c => c
  | inl messages => {| c_documents := []; c_df := ∅; c_cerr := messages |}
  end.

Definition small_start : system :=
  start (loaded small_input) (english_tokens small_input)
    (english_urls small_input) (opt_threshold small_input) 4.

Definition small_run : list event * system :=
  drive (round_robin 40 4) small_start.

(** A run that fails: two reference documents that both contain term 2,
    and a second candidate that has no other term. *)
Definition degenerate_input : input :=
  {| translated_tokens := [bag [(1%N, 2); (2%N, 1)]; bag [(2%N, 3); (3%N, 1)]];
     translated_urls := ["a"; "b"];
     english_tokens := [bag [(1%N, 1); (3%N, 1)]; bag [(2%N, 4)]; bag [(1%N, 1)]];
     english_urls := ["x"; "w"; "z"];
     opt_threshold := 5 |}.

Definition degenerate_start : system :=
  start (loaded degenerate_input) (english_tokens degenerate_input)
    (english_urls degenerate_input) (opt_threshold degenerate_input) 4.

Definition degenerate_run : list event * system :=
  drive (round_robin 40 4) degenerate_start.

(** A history on a queue of capacity two. *)
Definition queue_example : list (queue_event nat) :=
  [Pushed 10%nat; Pushed 20%nat; Popped 10%nat; Pushed 30%nat;
   Popped 20%nat; Popped 30%nat].

(** The successful run again with a single consumer. *)
Definition single_start : system :=
  start (loaded small_input) (english_tokens small_input)
    (english_urls small_input) (opt_threshold small_input) 1.

Definition single_run : list event * system :=
  drive (round_robin 60 1) single_start.

(** The successful run stopped after two rounds. *)
Definition early_run : list event * system :=
  drive (round_robin 2 4) small_start.



(** [small_input] with a single reference label. *)
Definition short_input : input :=
  {| translated_tokens := translated_tokens small_input;
     translated_urls := ["a"];
     english_tokens := english_tokens small_input;
     english_urls := english_urls small_input;
     opt_threshold := opt_threshold small_input |}.

(** The same document on both sides: the third reference document has
    only term 2, which every reference document contains, so its
    transform has no weight left; the second candidate is that very
    document. *)
Definition twin_input : input :=
  {| translated_tokens :=
       [bag [(1%N, 2); (2%N, 1)]; bag [(2%N, 3); (3%N, 1)]; bag [(2%N, 4)]];
     translated_urls := ["a"; "b"; "c"];
     english_tokens := [bag [(1%N, 1); (3%N, 1)]; bag [(2%N, 4)]; bag [(1%N, 1)]];
     english_urls := ["x"; "c"; "z"];
     opt_threshold := 5 |}.

Definition twin_start : system :=
  start (loaded twin_input) (english_tokens twin_input)
    (english_urls twin_input) (opt_threshold twin_input) 4.

Definition twin_run : list event * system :=
  drive (round_robin 40 4) twin_start.

(** * Properties *)

Section Properties.
Context `{FA : !FloatArith, TR : !Transformer}.

(** ** Alignment scorer *)

Lemma weight_of_cons_ne (h : N) (r : WordScore) (b : list WordScore) :
  hash r ≠ h → weight_of h (r :: b) = weight_of h b.
Proof.
  intros Hne. unfold weight_of. simpl.
  rewrite bool_decide_eq_false_2; done.
Qed.

Lemma weight_of_cons_eq (r : WordScore) (b : list WordScore) :
  weight_of (hash r) (r :: b) = Some (tfidf r).
Proof.
  unfold weight_of. simpl. rewrite bool_decide_eq_true_2; done.
Qed.

Lemma weight_of_absent (h : N) (b : list WordScore) :
  Forall (λ y, hash y ≠ h) b → weight_of h b = None.
Proof.
  induction 1 as [|y b Hy _ IH]; [done|].
  rewrite weight_of_cons_ne; done.
Qed.

Lemma shared_products_cons (x : WordScore) (a b : list WordScore) :
  shared_products (x :: a) b
    = match weight_of (hash x) b with
      | Some y => fmul (tfidf x) y :: shared_products a b
      | None => shared_products a b
      end.
Proof. unfold shared_products. simpl. by destruct (weight_of (hash x) b). Qed.

Lemma shared_products_nil_r (a : list WordScore) : shared_products a [] = [].
Proof. induction a as [|x a IH]; [done|]. by rewrite shared_products_cons. Qed.

Lemma shared_products_skip_r (a b : list WordScore) (r : WordScore) :
  Forall (λ x, hash x ≠ hash r) a →
  shared_products a (r :: b) = shared_products a b.
Proof.
  induction 1 as [|x a Hx _ IH]; [done|].
  rewrite !shared_products_cons, weight_of_cons_ne by done. by rewrite IH.
Qed.

Lemma sorted_by_hash_cons (x : WordScore) (v : list WordScore) :
  sorted_by_hash (x :: v) →
  sorted_by_hash v ∧ Forall (λ y, (hash x < hash y)%N) v.
Proof.
  unfold sorted_by_hash. rewrite fmap_cons. intros Hs.
  inversion Hs as [|? ? Hs' Hall]; subst. split; [done|].
  rewrite Forall_fmap in Hall. exact Hall.
Qed.

Lemma alignment_loop_sum (a b : list WordScore) (score : float) :
  sorted_by_hash a → sorted_by_hash b →
  alignment_loop a b score = sum_from score (shared_products a b).
Proof.
  funelim (alignment_loop a b score); intros Ha Hb;
    try match goal with IH' : _ → _ → alignment_loop _ _ _ = _ |- _ => rename IH' into IH end.
  - done.
  - by rewrite shared_products_nil_r.
  - (* equal hashes *)
    apply N.compare_eq in Heq.
    apply sorted_by_hash_cons in Ha as [Ha Hla].
    apply sorted_by_hash_cons in Hb as [Hb Hrb].
    rewrite IH by done.
    rewrite shared_products_cons, Heq, weight_of_cons_eq. simpl.
    rewrite shared_products_skip_r; [done|].
    eapply Forall_impl; [exact Hla|]. simpl. intros; lia.
  - (* left hash smaller *)
    rewrite N.compare_lt_iff in Heq.
    pose proof Hb as Hb'.
    apply sorted_by_hash_cons in Ha as [Ha Hla].
    apply sorted_by_hash_cons in Hb' as [_ Hrb].
    rewrite IH by done.
    rewrite shared_products_cons, weight_of_absent; [done|].
    constructor; [lia|]. eapply Forall_impl; [exact Hrb|]. simpl. intros; lia.
  - (* right hash smaller *)
    rewrite N.compare_gt_iff in Heq.
    pose proof Ha as Ha'.
    apply sorted_by_hash_cons in Ha' as [_ Hla].
    apply sorted_by_hash_cons in Hb as [Hb Hrb].
    rewrite IH by done.
    rewrite shared_products_skip_r; [done|].
    constructor; [lia|]. eapply Forall_impl; [exact Hla|]. simpl. intros; lia.
Qed.

Lemma alignment_loop_sym (a b : list WordScore) (score : float) :
  (∀ x y, fmul x y = fmul y x) →
  alignment_loop a b score = alignment_loop b a score.
Proof.
  intros Hcomm. funelim (alignment_loop a b score).
  - by destruct rit; simp alignment_loop.
  - by simp alignment_loop.
  - simp alignment_loop. rewrite N.compare_antisym, Heq. simpl.
    rewrite (Hcomm (tfidf r)). auto.
  - simp alignment_loop. rewrite N.compare_antisym, Heq. simpl. auto.
  - simp alignment_loop. rewrite N.compare_antisym, Heq. simpl. auto.
Qed.

(** C1.  For two scored documents whose weight sequences are strictly
    ascending by term hash, [calculate_alignment] returns the sum, taken
    from zero in ascending hash order, of the products of the two weights
    of every hash present in both sequences; whatever the sequences, the
    score is the same with the arguments swapped as soon as the product
    of two weights is commutative. *)
Theorem calculate_alignment_shared_sum (a b : Document) :
  sorted_by_hash (wordvec a) → sorted_by_hash (wordvec b) →
  calculate_alignment a b
    = sum_from fzero (shared_products (wordvec a) (wordvec b))
  ∧ ((∀ x y, fmul x y = fmul y x) →
     calculate_alignment a b = calculate_alignment b a).
Proof.
  intros Ha Hb. split.
  - by apply alignment_loop_sum.
  - intros Hcomm. by apply alignment_loop_sym.
Qed.

(** ** Document-frequency aggregation *)

Lemma size_incr_add (x c : Z) :
  (size_incr x + c) `mod` SIZE_MOD = (x + (1 + c)) `mod` SIZE_MOD.
Proof.
  unfold size_incr. rewrite Zplus_mod_idemp_l. f_equal. lia.
Qed.

Lemma df_add_document_lookup_match (df : gmap N Z) (document : Document)
    (term : N) :
  df_add_document df document !! term
    = match vocab document !! term with
      | Some _ => Some (size_incr (default 0 (df !! term)))
      | None => df !! term
      end.
Proof.
  unfold df_add_document.
  apply (map_fold_weak_ind
    (λ r m, r !! term = match m !! term with
                        | Some _ => Some (size_incr (default 0 (df !! term)))
                        | None => df !! term
                        end)).
  - by rewrite lookup_empty.
  - intros i x m r Hi IH. unfold df_incr.
    destruct (decide (i = term)) as [->|Hne].
    + rewrite !lookup_insert_eq. rewrite Hi in IH. by rewrite IH.
    + by rewrite !lookup_insert_ne.
Qed.

Lemma df_add_document_lookup (df : gmap N Z) (document : Document) (term : N) :
  df_add_document df document !! term
    = if decide (is_Some (vocab document !! term))
      then Some (size_incr (default 0 (df !! term)))
      else df !! term.
Proof.
  rewrite df_add_document_lookup_match.
  destruct (vocab document !! term) eqn:E.
  - by rewrite decide_True by eauto.
  - by rewrite decide_False by (by intros []).
Qed.

Lemma document_frequency_cons (term : N) (d : Document) (documents : list Document) :
  document_frequency term (d :: documents)
    = if decide (is_Some (vocab d !! term))
      then S (document_frequency term documents)
      else document_frequency term documents.
Proof.
  unfold document_frequency. rewrite filter_cons. by case_decide.
Qed.

Lemma foldl_df_add_document_lookup (documents : list Document) (df : gmap N Z)
    (term : N) :
  foldl df_add_document df documents !! term
    = if decide (document_frequency term documents = 0%nat)
      then df !! term
      else Some ((default 0 (df !! term)
                  + Z.of_nat (document_frequency term documents)) `mod` SIZE_MOD).
Proof.
  revert df. induction documents as [|d documents IH]; intros df; [done|].
  simpl. rewrite IH, document_frequency_cons, df_add_document_lookup.
  destruct (decide (is_Some (vocab d !! term))) as [Hin|Hout].
  - rewrite (decide_False (P := S _ = 0%nat)) by lia. simpl.
    case_decide as Hc.
    + rewrite Hc. reflexivity.
    + f_equal. rewrite size_incr_add. f_equal. lia.
  - done.
Qed.

Lemma document_frequency_le (term : N) (documents : list Document) :
  (document_frequency term documents ≤ length documents)%nat.
Proof. apply length_filter. Qed.

Lemma document_frequency_same_terms (term : N) (documents documents' : list Document) :
  Forall2 (λ d d', dom (vocab d) = dom (vocab d')) documents documents' →
  document_frequency term documents = document_frequency term documents'.
Proof.
  induction 1 as [|d d' documents documents' Hd _ IH]; [done|].
  rewrite !document_frequency_cons, IH.
  assert (is_Some (vocab d !! term) ↔ is_Some (vocab d' !! term)) as Hiff.
  { by rewrite <- !elem_of_dom, Hd. }
  repeat case_decide; tauto.
Qed.

(** C2.  For a reference corpus (a vector, so its length fits a
    [size_t]), the table built by lines 137-141 has, for every term, the
    number of documents whose [vocab] contains the term, and no entry for
    a term that no document contains.  One document moves the count of a
    term by one if it contains the term and not at all otherwise, whatever
    the occurrence count stored with the term, so two corpora whose
    documents have the same sets of terms give the same table.  The pass
    leaves the documents as they were. *)
Theorem aggregate_df_counts_documents (documents : list Document) (term : N) :
  Z.of_nat (length documents) < SIZE_MOD →
  aggregate_df documents !! term
    = (if decide (document_frequency term documents = 0%nat) then None
       else Some (Z.of_nat (document_frequency term documents)))
  ∧ (∀ df document,
       df_add_document df document !! term
         = if decide (is_Some (vocab document !! term))
           then Some (size_incr (default 0 (df !! term)))
           else df !! term)
  ∧ (∀ documents',
       Forall2 (λ d d', dom (vocab d) = dom (vocab d')) documents documents' →
       aggregate_df documents' = aggregate_df documents)
  ∧ (∀ c, c_documents c = documents →
       c_documents (aggregate_pass c) = documents
       ∧ (c_df c = ∅ → c_df (aggregate_pass c) = aggregate_df documents)).
Proof.
  intros Hlen. split; [|split; [|split]].
  - unfold aggregate_df. rewrite foldl_df_add_document_lookup, lookup_empty.
    case_decide; [done|]. simpl. f_equal.
    pose proof (document_frequency_le term documents).
    apply Z.mod_small. unfold SIZE_MOD in *. lia.
  - intros. apply df_add_document_lookup.
  - intros documents' Hsame. apply map_eq. intros i. unfold aggregate_df.
    rewrite !foldl_df_add_document_lookup.
    by rewrite (document_frequency_same_terms i _ _ Hsame).
  - intros c <-. split; [done|]. intros Hempty. simpl. by rewrite Hempty.
Qed.

(** ** The bounded queue *)

Lemma push_Some {T} (item : T) (q q' : blocking_queue T) :
  push item q = Some q' ↔
  Z.of_nat (length (_buffer q)) < _size q
  ∧ q' = {| _size := _size q; _buffer := _buffer q ++ [item] |}.
Proof.
  unfold push. destruct (decide _) as [Hfull|Hroom]; split.
  - done.
  - intros [? _]. lia.
  - intros [= <-]. split; [lia|done].
  - by intros [_ ->].
Qed.

Lemma push_None {T} (item : T) (q : blocking_queue T) :
  push item q = None ↔ _size q ≤ Z.of_nat (length (_buffer q)).
Proof.
  unfold push. by destruct (decide _) as [Hfull|Hroom].
Qed.

Lemma pop_Some {T} (item : T) (q q' : blocking_queue T) :
  pop q = Some (item, q') ↔
  _buffer q = item :: _buffer q' ∧ _size q' = _size q.
Proof.
  unfold pop. destruct q as [size [|value rest]], q' as [size' rest']; simpl.
  - split; [done|]. by intros [? _].
  - split.
    + by intros [= -> -> ->].
    + by intros [[= -> ->] ->].
Qed.

Lemma pop_None {T} (q : blocking_queue T) :
  pop q = None ↔ _buffer q = [].
Proof. unfold pop. by destruct (_buffer q). Qed.

Lemma pushed_items_snoc {T} (history : list (queue_event T)) (e : queue_event T) :
  pushed_items (history ++ [e])
    = pushed_items history
      ++ match e with Pushed x => [x] | Popped _ => [] end.
Proof.
  unfold pushed_items. rewrite omap_app. by destruct e.
Qed.

Lemma popped_items_snoc {T} (history : list (queue_event T)) (e : queue_event T) :
  popped_items (history ++ [e])
    = popped_items history
      ++ match e with Popped x => [x] | Pushed _ => [] end.
Proof.
  unfold popped_items. rewrite omap_app. by destruct e.
Qed.

Lemma queue_run_size {T} (q0 q : blocking_queue T) history :
  queue_run q0 history q → _size q = _size q0.
Proof.
  induction 1 as [|history q e q' _ IH Hstep]; [done|].
  destruct Hstep as [q item q' Hpush|q item q' Hpop].
  - apply push_Some in Hpush as [_ ->]. done.
  - apply pop_Some in Hpop as [_ ->]. done.
Qed.

Lemma queue_run_conservation {T} (q0 q : blocking_queue T) history :
  queue_run q0 history q →
  _buffer q0 ++ pushed_items history = popped_items history ++ _buffer q.
Proof.
  induction 1 as [|history q e q' _ IH Hstep].
  - simpl. by rewrite app_nil_r.
  - rewrite pushed_items_snoc, popped_items_snoc.
    destruct Hstep as [q item q' Hpush|q item q' Hpop].
    + apply push_Some in Hpush as [_ ->]. simpl.
      by rewrite !app_assoc, IH, app_nil_r.
    + apply pop_Some in Hpop as [Hbuf _].
      rewrite app_nil_r, IH, Hbuf, <- app_assoc. done.
Qed.

Lemma queue_run_bounded {T} (q0 q : blocking_queue T) history :
  queue_run q0 history q →
  Z.of_nat (length (_buffer q0)) ≤ _size q0 →
  Z.of_nat (length (_buffer q)) ≤ _size q.
Proof.
  induction 1 as [|history q e q' _ IH Hstep]; [done|]. intros H0.
  specialize (IH H0).
  destruct Hstep as [q item q' Hpush|q item q' Hpop].
  - apply push_Some in Hpush as [Hroom ->]. simpl.
    rewrite length_app. simpl. lia.
  - apply pop_Some in Hpop as [Hbuf ->]. rewrite Hbuf in IH. simpl in IH. lia.
Qed.

Lemma queue_run_full_needs_pop {T} (q q' : blocking_queue T) history :
  queue_run q history q' →
  _size q ≤ Z.of_nat (length (_buffer q)) →
  (history = [] ∧ q' = q) ∨ (∃ item, Popped item ∈ history).
Proof.
  induction 1 as [|history q1 e q2 _ IH Hstep]; [by left|].
  intros Hfull. right.
  destruct (IH Hfull) as [[-> ->]|[item Hin]].
  - destruct Hstep as [q1 item q2 Hpush|q1 item q2 Hpop].
    + apply push_Some in Hpush as [Hroom _]. lia.
    + exists item. apply list_elem_of_singleton. done.
  - exists item. apply elem_of_app. by left.
Qed.

Lemma queue_run_cons {T} (q q1 q2 : blocking_queue T) e history :
  queue_step q e q1 → queue_run q1 history q2 → queue_run q (e :: history) q2.
Proof.
  intros Hstep. induction 1 as [|history q2 e' q3 _ IH Hstep'].
  - apply (queue_run_snoc q [] q e q1); [constructor|done].
  - rewrite app_comm_cons. by eapply queue_run_snoc.
Qed.

Lemma queue_replay_run {T} (ops : list (queue_op T)) (q q' : blocking_queue T)
    history :
  queue_replay ops q = Some (history, q') → queue_run q history q'.
Proof.
  revert q history. induction ops as [|[item|] ops IH]; intros q history; simpl.
  - intros [= <- <-]. constructor.
  - destruct (push item q) as [q1|] eqn:Hpush; simpl; [|done].
    destruct (queue_replay ops q1) as [[history' q2]|] eqn:Hrest; simpl; [|done].
    intros [= <- <-]. eapply queue_run_cons; [by constructor|by apply IH].
  - destruct (pop q) as [[item q1]|] eqn:Hpop; simpl; [|done].
    destruct (queue_replay ops q1) as [[history' q2]|] eqn:Hrest; simpl; [|done].
    intros [= <- <-]. eapply queue_run_cons; [by constructor|by apply IH].
Qed.

(** ** Steps of the system *)

Lemma thread_step_step (t : thread) (s s' : system) (e : event) :
  thread_step t s = Some (e, s') → step s e s'.
Proof.
  destruct t as [|i]; simpl.
  - unfold main_step.
    destruct (main_thread s) as [toks urls n|b toks urls n|k c|j c|code] eqn:Hpc.
    + intros [= <- <-]. by eapply step_read.
    + destruct (push b (queue s)) as [q'|] eqn:Hpush; simpl; [|done].
      intros [= <- <-]. by eapply step_push.
    + destruct (decide (k < n_threads s)%nat) as [Hk|Hk].
      * destruct (push poison (queue s)) as [q'|] eqn:Hpush; simpl; [|done].
        intros [= <- <-]. by eapply step_poison.
      * intros [= <- <-]. by eapply step_poisoned.
    + destruct (consumers s !! j) as [[| |]|] eqn:Hj; try done.
      * intros [= <- <-]. by eapply step_join.
      * intros [= <- <-]. by eapply step_finish.
    + done.
  - unfold worker_step.
    destruct (consumers s !! i) as [[|b [|d todo]|]|] eqn:Hi; try done.
    + destruct (pop (queue s)) as [[b q']|] eqn:Hpop; simpl; [|done].
      intros [= <- <-]. by eapply step_pop.
    + intros [= <- <-]. by eapply step_next.
    + intros [= <- <-]. by eapply step_score.
Qed.

Lemma step_thread_step (s s' : system) (e : event) :
  step s e s' → ∃ t, thread_step t s = Some (e, s').
Proof.
  destruct 1 as [toks urls n Hpc|b toks urls n q' Hpc Hpush|k c q' Hpc Hk Hpush
    |k c Hpc Hk|j c Hpc Hj|j c Hpc Hj|i b q' Hi Hpop|i b d todo Hi|i b Hi].
  - exists Main. simpl. unfold main_step. by rewrite Hpc.
  - exists Main. simpl. unfold main_step. by rewrite Hpc, Hpush.
  - exists Main. simpl. unfold main_step.
    by rewrite Hpc, decide_True, Hpush by done.
  - exists Main. simpl. unfold main_step. by rewrite Hpc, decide_False by done.
  - exists Main. simpl. unfold main_step. by rewrite Hpc, Hj.
  - exists Main. simpl. unfold main_step. by rewrite Hpc, Hj.
  - exists (Consumer i). simpl. unfold worker_step. by rewrite Hi, Hpop.
  - exists (Consumer i). simpl. unfold worker_step. by rewrite Hi.
  - exists (Consumer i). simpl. unfold worker_step. by rewrite Hi.
Qed.

(** [read_candidate] only moves the main thread and writes to [cerr]. *)
Lemma read_candidate_turn toks urls n (s : system) :
  let s' := read_candidate toks urls n s in
  main_thread s' = (turn (documents s) (df s) toks urls n).1
  ∧ cerr s' = cerr s ++ (turn (documents s) (df s) toks urls n).2
  ∧ documents s' = documents s ∧ df s' = df s ∧ threshold s' = threshold s
  ∧ n_threads s' = n_threads s ∧ queue s' = queue s
  ∧ consumers s' = consumers s ∧ hits s' = hits s ∧ cout s' = cout s.
Proof.
  unfold read_candidate, turn.
  destruct toks as [|v toks]; [by rewrite app_nil_r|].
  destruct urls as [|u urls]; [done|]. simpl.
  destruct (decide (v = ∅)); [done|].
  destruct (wordvec_empty _); [done|]. simpl. by rewrite app_nil_r.
Qed.

(** The locals that the lambdas capture are never assigned. *)
Lemma step_frame (s s' : system) (e : event) :
  step s e s' →
  documents s' = documents s ∧ df s' = df s ∧ threshold s' = threshold s
  ∧ n_threads s' = n_threads s
  ∧ length (consumers s') = length (consumers s)
  ∧ _size (queue s') = _size (queue s).
Proof.
  destruct 1 as [toks urls n Hpc|b toks urls n q' Hpc Hpush|k c q' Hpc Hk Hpush
    |k c Hpc Hk|j c Hpc Hj|j c Hpc Hj|i b q' Hi Hpop|i b d todo Hi|i b Hi];
    simpl; rewrite ?length_insert;
    try (apply push_Some in Hpush as [_ ->]);
    try (apply pop_Some in Hpop as [_ ->]); try done.
  - destruct (read_candidate_turn toks urls n s)
      as (_ & _ & -> & -> & -> & -> & -> & -> & _). done.
  - by destruct c.
Qed.

Lemma run_frame (s0 s : system) (events : list event) :
  run s0 events s →
  documents s = documents s0 ∧ df s = df s0 ∧ threshold s = threshold s0
  ∧ n_threads s = n_threads s0
  ∧ length (consumers s) = length (consumers s0)
  ∧ _size (queue s) = _size (queue s0).
Proof.
  induction 1 as [|events s t e s' _ IH Hstep]; [done|].
  apply thread_step_step, step_frame in Hstep.
  destruct IH as (<- & <- & <- & <- & <- & <-). done.
Qed.

(** ** Termination: every step uses up one unit of [steps_left] *)

Lemma sum_list_with_insert {A} (f : A → nat) (l : list A) (i : nat) (x y : A) :
  l !! i = Some x →
  (sum_list_with f (<[i:=y]> l) + f x = sum_list_with f l + f y)%nat.
Proof.
  revert i. induction l as [|a l IH]; intros [|i] Hi; simplify_eq/=; [lia|].
  specialize (IH _ Hi). lia.
Qed.

Lemma step_steps_left (s s' : system) (e : event) :
  step s e s' → (steps_left s' < steps_left s)%nat.
Proof.
  destruct 1 as [toks urls n Hpc|b toks urls n q' Hpc Hpush|k c q' Hpc Hk Hpush
    |k c Hpc Hk|j c Hpc Hj|j c Hpc Hj|i b q' Hi Hpop|i b d todo Hi|i b Hi];
    unfold steps_left, main_cost, read_cost, poison_cost, join_cost.
  - destruct (read_candidate_turn toks urls n s)
      as (Hpc' & _ & Hd & _ & _ & Hn & Hq & Hc & _).
    rewrite Hpc', Hpc, Hq, Hc, Hn, Hd.
    replace (sum_list_with (item_cost (read_candidate toks urls n s)))
      with (sum_list_with (item_cost s)).
    2:{ unfold item_cost. by rewrite Hd. }
    unfold turn. destruct toks as [|v toks]; simpl; [lia|].
    destruct urls as [|u urls]; simpl; [lia|].
    destruct (decide (v = ∅)); simpl; [lia|].
    destruct (wordvec_empty _); simpl; lia.
  - rewrite Hpc. simpl. apply push_Some in Hpush as [_ ->]. simpl.
    rewrite sum_list_with_app. simpl.
    assert (item_cost s b ≤ length (documents s) + 2)%nat.
    { unfold item_cost. destruct (wordvec_empty b); lia. }
    change (item_cost (set_main _ _)) with (item_cost s). lia.
  - rewrite Hpc. simpl. apply push_Some in Hpush as [_ ->]. simpl.
    rewrite sum_list_with_app. simpl.
    change (item_cost (set_main _ _)) with (item_cost s).
    change (item_cost s poison) with 1%nat. lia.
  - rewrite Hpc. simpl. change (item_cost (set_main _ _)) with (item_cost s). lia.
  - rewrite Hpc. simpl. change (item_cost (set_main _ _)) with (item_cost s).
    apply lookup_lt_Some in Hj. lia.
  - rewrite Hpc. destruct c; simpl.
    + change (item_cost (set_main _ _)) with (item_cost s). lia.
    + change (item_cost (set_main _ _)) with (item_cost s). lia.
  - simpl. apply pop_Some in Hpop as [Hbuf _]. rewrite Hbuf. simpl.
    change (item_cost (set_consumer _ _ _)) with (item_cost s).
    pose proof (sum_list_with_insert worker_cost (consumers s) i WPop
      (if wordvec_empty b then WExit else WScore b (documents s)) Hi) as Hsum.
    rewrite length_insert.
    unfold item_cost at 2. destruct (wordvec_empty b); simpl in *; lia.
  - simpl. change (item_cost (set_consumer _ _ _)) with (item_cost s).
    pose proof (sum_list_with_insert worker_cost (consumers s) i _
      (WScore b todo) Hi) as Hsum. rewrite length_insert. simpl in *. lia.
  - simpl. change (item_cost (set_consumer _ _ _)) with (item_cost s).
    pose proof (sum_list_with_insert worker_cost (consumers s) i _
      WPop Hi) as Hsum. rewrite length_insert. simpl in *. lia.
Qed.

Lemma run_bounded (s0 s : system) (events : list event) :
  run s0 events s → (length events + steps_left s ≤ steps_left s0)%nat.
Proof.
  induction 1 as [|events s t e s' _ IH Hstep]; [simpl; lia|].
  apply thread_step_step, step_steps_left in Hstep.
  rewrite length_app. simpl. lia.
Qed.

(** ** The shutdown invariant *)

Lemma exited_dec (w : worker) : {w = WExit} + {w ≠ WExit}.
Proof. destruct w; [by right..|by left]. Qed.

Lemma running_insert (ws : list worker) (i : nat) (w w' : worker) :
  ws !! i = Some w →
  (running (<[i:=w']> ws) + match w with WExit => 0 | _ => 1 end
   = running ws + match w' with WExit => 0 | _ => 1 end)%nat.
Proof. apply sum_list_with_insert. Qed.

Lemma running_replicate (k : nat) : running (replicate k WPop) = k.
Proof. induction k as [|k IH]; [done|]. unfold running in *. simpl. by rewrite IH. Qed.

Lemma running_pos (ws : list worker) :
  (0 < running ws)%nat → ∃ i w, ws !! i = Some w ∧ w ≠ WExit.
Proof.
  induction ws as [|w ws IH]; unfold running; simpl; [lia|].
  intros Hpos. destruct (exited_dec w) as [->|Hw].
  - destruct IH as (i & w' & Hi & Hw'); [done|]. by exists (S i), w'.
  - by exists 0%nat, w.
Qed.

Lemma running_all_exited (ws : list worker) :
  Forall (λ w, w = WExit) ws → running ws = 0%nat.
Proof.
  induction 1 as [|w ws -> _ IH]; [done|]. unfold running in *. simpl. done.
Qed.

Lemma poisons_pos (buffer : list Document) :
  (0 < poisons buffer)%nat → buffer ≠ [].
Proof. destruct buffer; [unfold poisons; simpl; lia|done]. Qed.

Lemma poisons_app (b1 b2 : list Document) :
  poisons (b1 ++ b2) = (poisons b1 + poisons b2)%nat.
Proof. apply sum_list_with_app. Qed.

Lemma exited_take_insert (ws : list worker) (i j : nat) (w w' : worker) :
  ws !! i = Some w → w ≠ WExit →
  Forall (λ w, w = WExit) (take j ws) →
  Forall (λ w, w = WExit) (take j (<[i:=w']> ws)).
Proof.
  intros Hi Hw Hall. destruct (decide (i < j)%nat) as [Hlt|Hge].
  - exfalso. rewrite Forall_lookup in Hall.
    apply Hw, (Hall i). rewrite lookup_take_lt by done. done.
  - rewrite take_insert_ge by lia. done.
Qed.

Lemma exited_all_no_worker (ws : list worker) (i : nat) (w : worker) :
  ws !! i = Some w → w ≠ WExit → ¬ Forall (λ w, w = WExit) ws.
Proof.
  intros Hi Hw Hall. rewrite Forall_lookup in Hall. by apply Hw, (Hall i).
Qed.

Lemma start_shutdown_inv (c : corpus) toks urls thr (W : nat) :
  shutdown_inv (start c toks urls thr W).
Proof.
  unfold shutdown_inv, start, pending_poison. simpl.
  rewrite length_replicate, running_replicate. done.
Qed.

Lemma step_shutdown_inv (s s' : system) (e : event) :
  step s e s' → shutdown_inv s → shutdown_inv s'.
Proof.
  unfold shutdown_inv, pending_poison.
  destruct 1 as [toks urls n Hpc|b toks urls n q' Hpc Hpush|k c q' Hpc Hk Hpush
    |k c Hpc Hk|j c Hpc Hj|j c Hpc Hj|i b q' Hi Hpop|i b d todo Hi|i b Hi];
    intros (Hlen & Hrun & Hmain).
  - destruct (read_candidate_turn toks urls n s)
      as (Hpc' & _ & _ & _ & _ & Hn & Hq & Hc & _).
    rewrite Hpc', Hq, Hc, Hn. rewrite Hpc in Hrun. split; [done|].
    unfold turn. destruct toks as [|v toks]; simpl.
    { split; [|done]. rewrite Hrun. f_equal. lia. }
    destruct urls as [|u urls]; simpl.
    { split; [|done]. rewrite Hrun. f_equal. lia. }
    destruct (decide (v = ∅)); simpl.
    { split; [|done]. rewrite Hrun. f_equal. lia. }
    destruct (wordvec_empty _) eqn:Hwv; simpl.
    { split; [|done]. rewrite Hrun. f_equal. lia. }
    done.
  - rewrite Hpc in *. simpl. apply push_Some in Hpush as [_ ->]. simpl.
    rewrite poisons_app. unfold poisons at 2. simpl. rewrite Hmain.
    split; [done|]. split; [lia|done].
  - rewrite Hpc in *. simpl. apply push_Some in Hpush as [_ ->]. simpl.
    rewrite poisons_app. unfold poisons at 2. simpl.
    split; [done|]. split; [lia|done].
  - rewrite Hpc in *. simpl. split; [done|]. split; [lia|].
    rewrite take_0. constructor.
  - rewrite Hpc in *. simpl. split; [done|]. split; [done|].
    rewrite (take_S_r _ _ _ Hj). apply Forall_app. split; [done|].
    by constructor.
  - rewrite Hpc in *. apply lookup_ge_None in Hj.
    rewrite take_ge in Hmain by done.
    destruct c; simpl; done.
  - simpl. rewrite length_insert. apply pop_Some in Hpop as [Hbuf _].
    rewrite Hbuf in Hrun. unfold poisons in Hrun. simpl in Hrun.
    fold (poisons (_buffer q')) in Hrun.
    pose proof (running_insert (consumers s) i WPop
      (if wordvec_empty b then WExit else WScore b (documents s)) Hi) as Hins.
    split; [done|]. split.
    + destruct (main_thread s); destruct (wordvec_empty b); simpl in *; lia.
    + destruct (main_thread s); try done.
      * by eapply exited_take_insert.
      * by destruct (exited_all_no_worker _ _ _ Hi).
  - simpl. rewrite length_insert.
    pose proof (running_insert (consumers s) i _ (WScore b todo) Hi) as Hins.
    split; [done|]. split.
    + destruct (main_thread s); simpl in *; lia.
    + destruct (main_thread s); try done.
      * by eapply exited_take_insert.
      * by destruct (exited_all_no_worker _ _ _ Hi).
  - simpl. rewrite length_insert.
    pose proof (running_insert (consumers s) i _ WPop Hi) as Hins.
    split; [done|]. split.
    + destruct (main_thread s); simpl in *; lia.
    + destruct (main_thread s); try done.
      * by eapply exited_take_insert.
      * by destruct (exited_all_no_worker _ _ _ Hi).
Qed.

Lemma run_shutdown_inv (s0 s : system) (events : list event) :
  run s0 events s → shutdown_inv s0 → shutdown_inv s.
Proof.
  induction 1 as [|events s t e s' _ IH Hstep]; [done|].
  intros H0. eapply step_shutdown_inv; [by eapply thread_step_step|auto].
Qed.

(** ** No deadlock *)

Lemma worker_can_step (s : system) (i : nat) (w : worker) :
  consumers s !! i = Some w → w ≠ WExit →
  (w = WPop → _buffer (queue s) ≠ []) →
  ∃ e s', thread_step (Consumer i) s = Some (e, s').
Proof.
  intros Hi Hw Hbuf. simpl. unfold worker_step. rewrite Hi.
  destruct w as [|b [|d todo]|]; [|eauto..|done].
  specialize (Hbuf eq_refl). unfold pop.
  destruct (_buffer (queue s)); [done|]. simpl. eauto.
Qed.

Lemma some_worker_can_step (s : system) :
  (0 < running (consumers s))%nat → _buffer (queue s) ≠ [] →
  ∃ t e s', thread_step t s = Some (e, s').
Proof.
  intros Hrun Hbuf. apply running_pos in Hrun as (i & w & Hi & Hw).
  destruct (worker_can_step s i w) as (e & s' & Hstep); eauto.
Qed.

Lemma full_nonempty {T} (q : blocking_queue T) (item : T) :
  0 < _size q → push item q = None → _buffer q ≠ [].
Proof.
  intros Hsize Hfull. apply push_None in Hfull.
  destruct (_buffer q); simpl in *; [lia|done].
Qed.

Lemma shutdown_progress (s : system) :
  shutdown_inv s → 0 < _size (queue s) → (0 < n_threads s)%nat →
  (∃ status, main_thread s = MExit status)
  ∨ (∃ t e s', thread_step t s = Some (e, s')).
Proof.
  intros (Hlen & Hrun & Hmain) Hsize HW. unfold pending_poison in Hrun.
  destruct (main_thread s) as [toks urls n|b toks urls n|k c|j c|code] eqn:Hpc.
  - right. exists Main. simpl. unfold main_step. rewrite Hpc. eauto.
  - right. destruct (push b (queue s)) as [q'|] eqn:Hpush.
    + exists Main. simpl. unfold main_step. rewrite Hpc, Hpush. simpl. eauto.
    + apply some_worker_can_step; [lia|]. by eapply full_nonempty.
  - right. destruct (decide (k < n_threads s)%nat) as [Hk|Hk].
    + destruct (push poison (queue s)) as [q'|] eqn:Hpush.
      * exists Main. simpl. unfold main_step.
        rewrite Hpc, decide_True, Hpush by done. simpl. eauto.
      * apply some_worker_can_step; [lia|]. by eapply full_nonempty.
    + exists Main. simpl. unfold main_step.
      rewrite Hpc, decide_False by done. eauto.
  - right. destruct (consumers s !! j) as [w|] eqn:Hj.
    + destruct (exited_dec w) as [->|Hw].
      * exists Main. simpl. unfold main_step. rewrite Hpc, Hj. eauto.
      * exists (Consumer j). apply (worker_can_step s j w); [done..|].
        intros ->. apply poisons_pos.
        pose proof (running_insert (consumers s) j WPop WExit Hj). simpl in *.
        lia.
    + exists Main. simpl. unfold main_step. rewrite Hpc, Hj. eauto.
  - left. eauto.
Qed.

(** ** What the main thread pushes, writes and returns *)

Lemma replicate_poison_S (W k : nat) :
  (k < W)%nat → replicate (W - k) poison = poison :: replicate (W - S k) poison.
Proof. intros Hk. replace (W - k)%nat with (S (W - S k)) by lia. done. Qed.

Lemma step_plan (s s' : system) (e : event) :
  step s e s' →
  match e with Push item => [item] | _ => [] end ++ (plan s').1.1 = (plan s).1.1
  ∧ (plan s').1.2 = (plan s).1.2
  ∧ cerr s' ++ (plan s').2 = cerr s ++ (plan s).2.
Proof.
  destruct 1 as [toks urls n Hpc|b toks urls n q' Hpc Hpush|k c q' Hpc Hk Hpush
    |k c Hpc Hk|j c Hpc Hj|j c Hpc Hj|i b q' Hi Hpop|i b d todo Hi|i b Hi];
    unfold plan; try done.
  - destruct (read_candidate_turn toks urls n s)
      as (Hpc' & Hcerr & Hd & Hdf & _ & Hn & _).
    rewrite Hpc', Hpc, Hcerr, Hd, Hdf, Hn. unfold turn.
    destruct toks as [|v toks]; simpl.
    { by rewrite Nat.sub_0_r, !app_nil_r. }
    destruct urls as [|u urls]; simpl.
    { by rewrite Nat.sub_0_r, !app_nil_r. }
    destruct (decide (v = ∅)); simpl.
    { by rewrite Nat.sub_0_r, !app_nil_r. }
    fold (candidate (documents s) (df s) u v).
    destruct (wordvec_empty _); simpl.
    { by rewrite Nat.sub_0_r, !app_nil_r. }
    destruct (candidate_loop _ _ toks urls _) as [[pushed after] messages].
    simpl. by rewrite app_nil_r.
  - rewrite Hpc. cbn [main_thread set_main set_queue documents df n_threads cerr].
    destruct (candidate_loop _ _ toks urls _) as [[pushed after] messages].
    done.
  - rewrite Hpc. cbn [main_thread set_main set_queue n_threads cerr].
    by rewrite (replicate_poison_S _ k).
  - rewrite Hpc. cbn [main_thread set_main n_threads cerr].
    replace (n_threads s - k)%nat with 0%nat by lia. done.
  - rewrite Hpc. done.
  - rewrite Hpc. by destruct c.
Qed.

Lemma pushes_snoc (events : list event) (e : event) :
  pushes (events ++ [e])
    = pushes events ++ match e with Push item => [item] | _ => [] end.
Proof. unfold pushes. rewrite omap_app. by destruct e. Qed.

Lemma run_plan (s0 s : system) (events : list event) :
  run s0 events s →
  pushes events ++ (plan s).1.1 = (plan s0).1.1
  ∧ (plan s).1.2 = (plan s0).1.2
  ∧ cerr s ++ (plan s).2 = cerr s0 ++ (plan s0).2.
Proof.
  induction 1 as [|events s t e s' _ (IH1 & IH2 & IH3) Hstep]; [done|].
  apply thread_step_step, step_plan in Hstep as (H1 & H2 & H3).
  rewrite pushes_snoc, <- app_assoc, H1, H2, H3. done.
Qed.

Lemma candidate_loop_not_poison documents df toks urls n :
  Forall (λ buffer, wordvec_empty buffer = false)
    (candidate_loop documents df toks urls n).1.1.
Proof.
  revert urls n. induction toks as [|v toks IH]; intros urls n; simpl; [done|].
  destruct urls as [|u urls]; simpl; [done|].
  destruct (decide (v = ∅)); simpl; [done|].
  destruct (wordvec_empty _) eqn:Hwv; simpl; [done|].
  specialize (IH urls (size_incr n)).
  destruct (candidate_loop _ _ toks urls _) as [[pushed after] messages].
  simpl in *. by constructor.
Qed.

(** ** The queue inside the system *)

Lemma queue_history_snoc (events : list event) (e : event) :
  queue_history (events ++ [e])
    = queue_history events
      ++ match e with
         | Push item => [Pushed item]
         | Pop _ item => [Popped item]
         | _ => []
         end.
Proof. unfold queue_history. rewrite omap_app. by destruct e. Qed.

Lemma step_queue (s s' : system) (e : event) :
  step s e s' →
  match e with
  | Push item => push item (queue s) = Some (queue s')
  | Pop _ item => pop (queue s) = Some (item, queue s')
  | _ => queue s' = queue s
  end.
Proof.
  destruct 1 as [toks urls n Hpc|b toks urls n q' Hpc Hpush|k c q' Hpc Hk Hpush
    |k c Hpc Hk|j c Hpc Hj|j c Hpc Hj|i b q' Hi Hpop|i b d todo Hi|i b Hi];
    simpl; try done.
  - by destruct (read_candidate_turn toks urls n s)
      as (_ & _ & _ & _ & _ & _ & -> & _).
  - by destruct c.
Qed.

Lemma run_queue_run (s0 s : system) (events : list event) :
  run s0 events s → queue_run (queue s0) (queue_history events) (queue s).
Proof.
  induction 1 as [|events s t e s' _ IH Hstep]; [constructor|].
  apply thread_step_step, step_queue in Hstep. rewrite queue_history_snoc.
  destruct e as [|item|i item|i d b hit|j]; rewrite ?app_nil_r, ?Hstep; try done.
  - eapply queue_run_snoc; [done|]. by constructor.
  - eapply queue_run_snoc; [done|]. by constructor.
Qed.

(** ** What a consumer does *)

Lemma worker_events_snoc (i : nat) (events : list event) (e : event) :
  worker_events i (events ++ [e])
    = worker_events i events ++ (if by_consumer i e then [e] else []).
Proof. unfold worker_events. rewrite List.filter_app. simpl. by destruct (by_consumer i e). Qed.

Lemma poison_pops_snoc (i : nat) (events : list event) (e : event) :
  poison_pops i (events ++ [e])
    = (poison_pops i events + if poison_pop i e then 1 else 0)%nat.
Proof.
  unfold poison_pops. rewrite List.filter_app, length_app. simpl.
  by destruct (poison_pop i e).
Qed.

Lemma hit_count_snoc (events : list event) (e : event) :
  hit_count (events ++ [e]) = (hit_count events + if is_hit e then 1 else 0)%nat.
Proof.
  unfold hit_count. rewrite List.filter_app, length_app. simpl.
  by destruct (is_hit e).
Qed.

Lemma step_poison_pops (s s' : system) (e : event) (i : nat) :
  step s e s' →
  (exited_count (consumers s' !! i)
   = exited_count (consumers s !! i) + if poison_pop i e then 1 else 0)%nat.
Proof.
  destruct 1 as [toks urls n Hpc|b toks urls n q' Hpc Hpush|k c q' Hpc Hk Hpush
    |k c Hpc Hk|j c Hpc Hj|j c Hpc Hj|j b q' Hj Hpop|j b d todo Hj|j b Hj];
    simpl; rewrite ?Nat.add_0_r; try done.
  - by destruct (read_candidate_turn toks urls n s)
      as (_ & _ & _ & _ & _ & _ & _ & -> & _).
  - by destruct c.
  - destruct (decide (j = i)) as [->|Hne].
    + rewrite bool_decide_eq_true_2 by done. simpl.
      rewrite list_lookup_insert_eq by (by eapply lookup_lt_Some).
      rewrite Hj. by destruct (wordvec_empty b).
    + rewrite bool_decide_eq_false_2 by done. simpl.
      rewrite list_lookup_insert_ne by done. lia.
  - destruct (decide (j = i)) as [->|Hne].
    + rewrite list_lookup_insert_eq by (by eapply lookup_lt_Some). by rewrite Hj.
    + by rewrite list_lookup_insert_ne.
  - destruct (decide (j = i)) as [->|Hne].
    + rewrite list_lookup_insert_eq by (by eapply lookup_lt_Some). by rewrite Hj.
    + by rewrite list_lookup_insert_ne.
Qed.

Lemma run_poison_pops (s0 s : system) (events : list event) (i : nat) :
  run s0 events s →
  (exited_count (consumers s !! i)
   = exited_count (consumers s0 !! i) + poison_pops i events)%nat.
Proof.
  induction 1 as [|events s t e s' _ IH Hstep]; [by unfold poison_pops; simpl|].
  apply thread_step_step in Hstep.
  rewrite (step_poison_pops _ _ _ i Hstep), poison_pops_snoc. lia.
Qed.

Lemma block_snoc (i : nat) (scored : list Document) (thr : float)
    (b d : Document) :
  block i (scored ++ [d]) thr b
    = block i scored thr b ++ [Score i d b (fge (calculate_alignment d b) thr)].
Proof. unfold block. by rewrite fmap_app. Qed.

Lemma step_worker_log (s s' : system) (e : event) (i : nat) (log : list event) :
  step s e s' →
  worker_log i (documents s) (threshold s) (consumers s !! i) log →
  worker_log i (documents s) (threshold s) (consumers s' !! i)
    (log ++ if by_consumer i e then [e] else []).
Proof.
  destruct 1 as [toks urls n Hpc|b toks urls n q' Hpc Hpush|k c q' Hpc Hk Hpush
    |k c Hpc Hk|j c Hpc Hj|j c Hpc Hj|j b q' Hj Hpop|j b d todo Hj|j b Hj];
    simpl; rewrite ?app_nil_r; try done.
  - by destruct (read_candidate_turn toks urls n s)
      as (_ & _ & _ & _ & _ & _ & _ & -> & _).
  - by destruct c.
  - destruct (decide (j = i)) as [->|Hne].
    + rewrite bool_decide_eq_true_2 by done.
      rewrite list_lookup_insert_eq by (by eapply lookup_lt_Some).
      rewrite Hj. intros (finished & Hfin & ->). exists finished.
      split; [done|]. destruct (wordvec_empty b) eqn:Hb.
      * by exists b.
      * split; [done|]. by exists [].
    + rewrite bool_decide_eq_false_2 by done.
      rewrite list_lookup_insert_ne, app_nil_r by done. done.
  - destruct (decide (j = i)) as [->|Hne].
    + rewrite bool_decide_eq_true_2 by done.
      rewrite list_lookup_insert_eq by (by eapply lookup_lt_Some).
      rewrite Hj. intros (finished & Hfin & Hb & scored & Hd & ->).
      exists finished. split; [done|]. split; [done|].
      exists (scored ++ [d]). split.
      * by rewrite <- app_assoc.
      * by rewrite block_snoc, app_assoc.
    + rewrite bool_decide_eq_false_2 by done.
      rewrite list_lookup_insert_ne, app_nil_r by done. done.
  - destruct (decide (j = i)) as [->|Hne].
    + rewrite list_lookup_insert_eq by (by eapply lookup_lt_Some).
      rewrite Hj. intros (finished & Hfin & Hb & scored & Hd & ->).
      rewrite app_nil_r in Hd. subst scored.
      exists (finished ++ [b]). split.
      * apply Forall_app. split; [done|]. by constructor.
      * rewrite bind_app. simpl. by rewrite app_nil_r.
    + by rewrite list_lookup_insert_ne.
Qed.

Lemma run_worker_log (s0 s : system) (events : list event) (i : nat) :
  run s0 events s →
  worker_log i (documents s0) (threshold s0) (consumers s0 !! i) [] →
  worker_log i (documents s0) (threshold s0) (consumers s !! i)
    (worker_events i events).
Proof.
  induction 1 as [|events s t e s' Hrun IH Hstep]; [done|]. intros H0.
  apply thread_step_step in Hstep. rewrite worker_events_snoc.
  destruct (run_frame _ _ _ Hrun) as (Hd & _ & Hthr & _).
  rewrite <- Hd, <- Hthr. apply step_worker_log; [done|].
  rewrite Hd, Hthr. auto.
Qed.

Lemma start_worker_log (c : corpus) toks urls thr (W i : nat) :
  let s0 := start c toks urls thr W in
  worker_log i (documents s0) (threshold s0) (consumers s0 !! i) [].
Proof.
  simpl. exists []. split; [done|].
  destruct (replicate W WPop !! i) as [w|] eqn:Hi; [|done].
  apply lookup_replicate in Hi as [-> _]. done.
Qed.

Lemma step_hits (s s' : system) (e : event) :
  step s e s' → hits s' = if is_hit e then size_incr (hits s) else hits s.
Proof.
  destruct 1 as [toks urls n Hpc|b toks urls n q' Hpc Hpush|k c q' Hpc Hk Hpush
    |k c Hpc Hk|j c Hpc Hj|j c Hpc Hj|j b q' Hj Hpop|j b d todo Hj|j b Hj];
    simpl; try done.
  - by destruct (read_candidate_turn toks urls n s)
      as (_ & _ & _ & _ & _ & _ & _ & _ & -> & _).
  - by destruct c.
Qed.

Lemma run_hits (s0 s : system) (events : list event) :
  run s0 events s →
  hits s `mod` SIZE_MOD
    = (hits s0 + Z.of_nat (hit_count events)) `mod` SIZE_MOD.
Proof.
  induction 1 as [|events s t e s' _ IH Hstep].
  - unfold hit_count. simpl. by rewrite Z.add_0_r.
  - apply thread_step_step, step_hits in Hstep.
    rewrite Hstep, hit_count_snoc. destruct (is_hit e).
    + unfold size_incr. rewrite Z.mod_mod by done.
      rewrite <- Zplus_mod_idemp_l, IH, Zplus_mod_idemp_l. f_equal. lia.
    + rewrite IH. f_equal. lia.
Qed.

Lemma run_hits_range (s0 s : system) (events : list event) :
  run s0 events s → 0 ≤ hits s0 < SIZE_MOD → 0 ≤ hits s < SIZE_MOD.
Proof.
  induction 1 as [|events s t e s' _ IH Hstep]; [done|]. intros H0.
  apply thread_step_step, step_hits in Hstep. rewrite Hstep.
  destruct (is_hit e); [|auto]. unfold size_incr. by apply Z.mod_pos_bound.
Qed.

Lemma hit_count_block (i : nat) (documents : list Document) (thr : float)
    (b : Document) :
  hit_count (block i documents thr b) = hits_of documents thr b.
Proof.
  unfold hit_count, hits_of, block. cbn [List.filter is_hit].
  induction documents as [|d documents IH]; [done|].
  rewrite fmap_cons. cbn [List.filter is_hit].
  destruct (fge _ _); cbn [length]; by rewrite IH.
Qed.

(** ** Runs *)

Lemma run_app (s0 s1 s2 : system) (events1 events2 : list event) :
  run s0 events1 s1 → run s1 events2 s2 → run s0 (events1 ++ events2) s2.
Proof.
  intros H1. induction 1 as [|events s t e s' _ IH Hstep].
  - by rewrite app_nil_r.
  - rewrite app_assoc. by eapply run_snoc.
Qed.

Lemma run_cons (s s1 s2 : system) (t : thread) (e : event) (events : list event) :
  thread_step t s = Some (e, s1) → run s1 events s2 → run s (e :: events) s2.
Proof.
  intros Hstep Hrun. apply (run_app s s1 s2 [e] events); [|done].
  apply (run_snoc s [] s t e s1); [constructor|done].
Qed.

Lemma drive_run (schedule : list thread) (s : system) :
  run s (drive schedule s).1 (drive schedule s).2.
Proof.
  revert s. induction schedule as [|t schedule IH]; intros s; simpl.
  - constructor.
  - destruct (thread_step t s) as [[e s1]|] eqn:Hstep; [|apply IH].
    specialize (IH s1). destruct (drive schedule s1) as [events s2].
    simpl in *. by eapply run_cons.
Qed.

(** A consumer that has left its loop stays out and does nothing more. *)
Lemma step_exited (s s' : system) (e : event) (i : nat) :
  step s e s' → consumers s !! i = Some WExit →
  consumers s' !! i = Some WExit ∧ by_consumer i e = false.
Proof.
  destruct 1 as [toks urls n Hpc|b toks urls n q' Hpc Hpush|k c q' Hpc Hk Hpush
    |k c Hpc Hk|j c Hpc Hj|j c Hpc Hj|j b q' Hj Hpop|j b d todo Hj|j b Hj];
    simpl; intros Hi; try done.
  - by destruct (read_candidate_turn toks urls n s)
      as (_ & _ & _ & _ & _ & _ & _ & -> & _).
  - by destruct c.
  - destruct (decide (j = i)) as [->|Hne]; [congruence|].
    by rewrite list_lookup_insert_ne, bool_decide_eq_false_2.
  - destruct (decide (j = i)) as [->|Hne]; [congruence|].
    by rewrite list_lookup_insert_ne, bool_decide_eq_false_2.
  - destruct (decide (j = i)) as [->|Hne]; [congruence|].
    by rewrite list_lookup_insert_ne.
Qed.

Lemma run_exited (s s' : system) (events : list event) (i : nat) :
  run s events s' → consumers s !! i = Some WExit →
  consumers s' !! i = Some WExit ∧ worker_events i events = [].
Proof.
  induction 1 as [|events s1 t e s2 _ IH Hstep]; [done|]. intros Hi.
  destruct (IH Hi) as [Hi1 Hev].
  apply thread_step_step in Hstep.
  destruct (step_exited _ _ _ i Hstep Hi1) as [Hi2 He].
  by rewrite worker_events_snoc, Hev, He.
Qed.

(** Once [main] has returned, nothing moves. *)
Lemma exit_halted (s : system) (status : Z) (t : thread) :
  shutdown_inv s → main_thread s = MExit status → thread_step t s = None.
Proof.
  intros (_ & _ & Hmain) Hpc. rewrite Hpc in Hmain.
  destruct t as [|i]; simpl.
  - unfold main_step. by rewrite Hpc.
  - unfold worker_step. destruct (consumers s !! i) as [w|] eqn:Hi; [|done].
    rewrite Forall_lookup in Hmain. by rewrite (Hmain i w Hi).
Qed.

(** Every state of the invariant can run on to the exit of [main]. *)
Lemma run_to_exit (s : system) :
  shutdown_inv s → 0 < _size (queue s) → (0 < n_threads s)%nat →
  ∃ events s' status, run s events s' ∧ main_thread s' = MExit status.
Proof.
  remember (steps_left s) as fuel eqn:Hfuel.
  revert s Hfuel. induction fuel as [fuel IH] using lt_wf_ind.
  intros s -> Hinv Hsize HW.
  destruct (shutdown_progress s Hinv Hsize HW)
    as [[status Hpc]|(t & e & s1 & Hstep)].
  - exists [], s, status. split; [constructor|done].
  - pose proof (thread_step_step _ _ _ _ Hstep) as Hstep'.
    destruct (step_frame _ _ _ Hstep') as (_ & _ & _ & Hn & _ & Hq).
    destruct (IH (steps_left s1) (step_steps_left _ _ _ Hstep') s1 eq_refl)
      as (events & s' & status & Hrun & Hpc).
    + by eapply step_shutdown_inv.
    + by rewrite Hq.
    + by rewrite Hn.
    + exists (e :: events), s', status. split; [|done]. by eapply run_cons.
Qed.

Lemma step_cout_inv (printed : list Z) (s s' : system) (e : event) :
  step s e s' → shutdown_inv s → cout_inv printed s → cout_inv printed s'.
Proof.
  unfold cout_inv.
  destruct 1 as [toks urls n Hpc|b toks urls n q' Hpc Hpush|k c q' Hpc Hk Hpush
    |k c Hpc Hk|j c Hpc Hj|j c Hpc Hj|j b q' Hj Hpop|j b d todo Hj|j b Hj];
    intros Hinv; try (rewrite Hpc; simpl; done).
  - destruct (read_candidate_turn toks urls n s)
      as (Hpc' & _ & _ & _ & _ & _ & _ & _ & _ & Hcout).
    rewrite Hpc', Hpc, Hcout. unfold turn.
    destruct toks as [|v toks]; simpl; [by auto|].
    destruct urls as [|u urls]; simpl; [by auto|].
    destruct (decide (v = ∅)); simpl; [by auto|].
    destruct (wordvec_empty _); simpl; by auto.
  - rewrite Hpc. intros [Hcout Hafter]. destruct c as [status|]; simpl in *.
    + rewrite decide_False; [by rewrite app_nil_r|]. by destruct Hafter.
    + by rewrite Hcout.
  - simpl. by destruct (main_thread s).
  - simpl. destruct (main_thread s) eqn:Hpc; try done.
    destruct Hinv as (_ & _ & Hall). rewrite Hpc in Hall.
    by destruct (exited_all_no_worker _ _ _ Hj).
  - simpl. by destruct (main_thread s).
Qed.

Lemma run_cout_inv (s0 s : system) (events : list event) :
  run s0 events s → shutdown_inv s0 → cout_inv (cout s0) s0 →
  cout_inv (cout s0) s.
Proof.
  induction 1 as [|events s t e s' Hrun IH Hstep]; [done|]. intros Hinv H0.
  eapply step_cout_inv; [by eapply thread_step_step| |auto].
  by eapply run_shutdown_inv.
Qed.

(** ** The two reading loops *)

Lemma iter_size_incr (k : nat) (n : Z) :
  Nat.iter k size_incr n `mod` SIZE_MOD = (n + Z.of_nat k) `mod` SIZE_MOD.
Proof.
  induction k as [|k IH]; [by rewrite Z.add_0_r|].
  rewrite Nat.iter_succ. unfold size_incr at 1. rewrite Z.mod_mod by done.
  rewrite <- Zplus_mod_idemp_l, IH, Zplus_mod_idemp_l. f_equal. lia.
Qed.

Lemma iter_size_incr_0 (k : nat) :
  Nat.iter k size_incr 0 = Z.of_nat k `mod` SIZE_MOD.
Proof.
  destruct k as [|k]; [done|].
  transitivity (Nat.iter (S k) size_incr 0 `mod` SIZE_MOD).
  - rewrite Nat.iter_succ. unfold size_incr at 1 3. by rewrite Z.mod_mod.
  - by rewrite iter_size_incr.
Qed.

Lemma iter_size_incr_r (k : nat) (n : Z) :
  Nat.iter k size_incr (size_incr n) = size_incr (Nat.iter k size_incr n).
Proof. induction k as [|k IH]; [done|]. by rewrite !Nat.iter_succ, IH. Qed.

Lemma candidate_loop_passed documents df us vs toks urls n :
  Forall2 (passes_guards documents df) us vs →
  candidate_loop documents df (vs ++ toks) (us ++ urls) n
    = let '(pushed, after, messages) :=
        candidate_loop documents df toks urls (Nat.iter (length vs) size_incr n) in
      (zip_with (candidate documents df) us vs ++ pushed, after, messages).
Proof.
  intros Hgood. revert n.
  induction Hgood as [|u v us vs [Hv Hwv] _ IH]; intros n.
  - simpl. by destruct (candidate_loop _ _ toks urls n) as [[? ?] ?].
  - cbn [app candidate_loop length zip_with].
    rewrite decide_False by done. cbn zeta. rewrite Hwv, IH.
    rewrite Nat.iter_succ, <- iter_size_incr_r.
    by destruct (candidate_loop _ _ toks urls _) as [[? ?] ?].
Qed.



Lemma candidate_loop_prefix documents df toks urls n :
  (candidate_loop documents df toks urls n).1.1
    `prefix_of` zip_with (candidate documents df) urls toks.
Proof.
  revert urls n. induction toks as [|v toks IH]; intros urls n; simpl.
  { by destruct urls. }
  destruct urls as [|u urls]; simpl; [done|].
  destruct (decide (v = ∅)); simpl; [apply prefix_nil|].
  destruct (wordvec_empty _); simpl; [apply prefix_nil|].
  specialize (IH urls (size_incr n)).
  destruct (candidate_loop _ _ toks urls _) as [[pushed after] messages].
  simpl in *. by apply prefix_cons.
Qed.

Lemma read_documents_paired toks urls documents :
  (length toks ≤ length urls)%nat →
  read_documents toks urls documents
    = inr (documents ++ zip_with as_read urls toks).
Proof.
  revert urls documents.
  induction toks as [|v toks IH]; intros urls documents Hlen; simpl.
  { destruct urls; by rewrite app_nil_r. }
  destruct urls as [|u urls]; simpl in *; [lia|].
  rewrite IH by lia. by rewrite <- app_assoc.
Qed.

Lemma read_documents_short toks urls documents :
  (length urls < length toks)%nat →
  read_documents toks urls documents
    = inl (Z.of_nat (length documents + length urls)).
Proof.
  revert urls documents.
  induction toks as [|v toks IH]; intros urls documents Hlen; simpl in *; [lia|].
  destruct urls as [|u urls]; simpl in *.
  { by rewrite Nat.add_0_r. }
  rewrite IH by lia. rewrite length_app. simpl. do 2 f_equal. lia.
Qed.


Lemma length_transform_documents documents df :
  length (transform_documents documents df) = length documents.
Proof. unfold transform_documents. by rewrite length_fmap. Qed.

(** What the first phase leaves behind when every document has a label. *)
Lemma load_corpus_paired toks urls :
  (length toks ≤ length urls)%nat →
  let read := zip_with as_read urls toks in
  load_corpus toks urls
    = inr {| c_documents := transform_documents read (aggregate_df read);
             c_df := aggregate_df read;
             c_cerr := [ReadDocuments (Z.of_nat (length toks));
                        AggregatedDF; CalculatedTFIDF] |}.
Proof.
  intros Hlen read. unfold load_corpus.
  rewrite read_documents_paired by done. simpl.
  unfold transform_pass, aggregate_pass. simpl.
  fold read. fold (aggregate_df read).
  replace (length read) with (length toks); [done|].
  unfold read. rewrite length_zip_with. lia.
Qed.

Lemma load_corpus_short toks urls :
  (length urls < length toks)%nat →
  load_corpus toks urls = inl [ErrorReadingUrlRef (Z.of_nat (length urls))].
Proof.
  intros Hlen. unfold load_corpus. by rewrite read_documents_short.
Qed.

(** ** Joins *)

Lemma joins_snoc (events : list event) (e : event) :
  joins (events ++ [e])
    = joins events ++ match e with Join j => [j] | _ => [] end.
Proof. unfold joins. rewrite omap_app. by destruct e. Qed.

Lemma step_join_inv (s s' : system) (e : event) (events : list event) :
  step s e s' → join_inv s events → join_inv s' (events ++ [e]).
Proof.
  unfold join_inv. rewrite joins_snoc.
  destruct 1 as [toks urls n Hpc|b toks urls n q' Hpc Hpush|k c q' Hpc Hk Hpush
    |k c Hpc Hk|j c Hpc Hj|j c Hpc Hj|i b q' Hi Hpop|i b d todo Hi|i b Hi];
    try rewrite Hpc; simpl; rewrite ?app_nil_r, ?length_insert; try done.
  - destruct (read_candidate_turn toks urls n s) as (-> & _). unfold turn.
    destruct toks as [|v toks]; simpl; [done|].
    destruct urls as [|u urls]; simpl; [done|].
    destruct (decide (v = ∅)); simpl; [done|].
    by destruct (wordvec_empty _).
  - intros ->. split; [done|lia].
  - intros [-> Hle]. apply lookup_lt_Some in Hj. split; [|lia].
    exact (eq_sym (seq_S j 0)).
  - intros [-> Hle]. apply lookup_ge_None in Hj.
    replace j with (length (consumers s)) by lia. by destruct c.
Qed.

Lemma run_join_inv (s0 s : system) (events : list event) :
  run s0 events s → join_inv s0 [] → join_inv s events.
Proof.
  induction 1 as [|events s t e s' _ IH Hstep]; [done|]. intros H0.
  eapply step_join_inv; [by eapply thread_step_step|auto].
Qed.

(** ** The buffer is in order *)

Lemma poisons_candidates (ahead : list Document) :
  Forall (λ item, wordvec_empty item = false) ahead → poisons ahead = 0%nat.
Proof.
  induction 1 as [|item ahead Hitem _ IH]; [done|].
  unfold poisons in *. simpl. by rewrite Hitem, IH.
Qed.

Lemma poisons_replicate (k : nat) : poisons (replicate k poison) = k.
Proof. induction k as [|k IH]; [done|]. unfold poisons in *. simpl. by rewrite IH. Qed.

Lemma step_fifo_inv (s s' : system) (e : event) :
  step s e s' → shutdown_inv s → fifo_inv s → fifo_inv s'.
Proof.
  unfold fifo_inv, pending_poison.
  destruct 1 as [toks urls n Hpc|b toks urls n q' Hpc Hpush|k c q' Hpc Hk Hpush
    |k c Hpc Hk|j c Hpc Hj|j c Hpc Hj|i b q' Hi Hpop|i b d todo Hi|i b Hi];
    intros (Hlen & Hrun & Hmain) (ahead & p & Hbuf & Hahead & Hphase & Hdrain).
  - destruct (read_candidate_turn toks urls n s)
      as (Hpc' & _ & _ & _ & _ & Hn & Hq & _).
    rewrite Hpc', Hq, Hn. rewrite Hpc in *. exists ahead, p.
    split; [done|]. split; [done|]. unfold turn.
    destruct toks as [|v toks]; simpl.
    { split; [done|]. by rewrite Nat.sub_0_r. }
    destruct urls as [|u urls]; simpl.
    { split; [done|]. by rewrite Nat.sub_0_r. }
    destruct (decide (v = ∅)); simpl.
    { split; [done|]. by rewrite Nat.sub_0_r. }
    destruct (wordvec_empty _); simpl; [|done].
    split; [done|]. by rewrite Nat.sub_0_r.
  - rewrite Hpc in *. subst p. apply push_Some in Hpush as [_ ->]. simpl.
    exists (ahead ++ [b]), 0%nat. rewrite Hbuf. simpl. rewrite !app_nil_r.
    split; [done|]. split; [|split; [done|lia]].
    apply Forall_app. split; [done|]. by constructor.
  - rewrite Hpc in *. apply push_Some in Hpush as [_ ->]. simpl.
    exists ahead, (S p). rewrite Hbuf, <- app_assoc.
    split; [by rewrite replicate_S_end|]. split; [done|]. split; [done|].
    intros Hlt. apply Hdrain. lia.
  - rewrite Hpc in *. simpl. exists ahead, p. repeat split; try done.
    intros Hlt. apply Hdrain. lia.
  - rewrite Hpc in *. simpl. exists ahead, p. done.
  - rewrite Hpc in *. exists ahead, p. by destruct c.
  - simpl. apply pop_Some in Hpop as [Hbuf' _]. rewrite Hbuf' in Hbuf.
    destruct ahead as [|a ahead]; simpl in Hbuf.
    + destruct p as [|p]; simpl in Hbuf; [done|].
      injection Hbuf as -> Hbuf. exists [], p. split; [done|].
      split; [done|]. split; [by destruct (main_thread s)|done].
    + injection Hbuf as -> Hbuf. exists ahead, p. split; [done|].
      apply Forall_cons in Hahead as [_ Hahead]. split; [done|]. split; [done|].
      intros Hlt. by specialize (Hdrain Hlt).
  - simpl. by exists ahead, p.
  - simpl. by exists ahead, p.
Qed.

Lemma run_fifo_inv (s0 s : system) (events : list event) :
  run s0 events s → shutdown_inv s0 → fifo_inv s0 → fifo_inv s.
Proof.
  induction 1 as [|events s t e s' Hrun IH Hstep]; [done|]. intros Hinv H0.
  eapply step_fifo_inv; [by eapply thread_step_step| |auto].
  by eapply run_shutdown_inv.
Qed.

Lemma exit_buffer_empty (s : system) (status : Z) :
  shutdown_inv s → fifo_inv s → (0 < n_threads s)%nat →
  main_thread s = MExit status → _buffer (queue s) = [].
Proof.
  intros (Hlen & Hrun & Hmain) (ahead & k & Hbuf & Hahead & _ & Hdrain) HW Hpc.
  unfold pending_poison in *. rewrite Hpc in *.
  rewrite running_all_exited in Hrun by done.
  rewrite Hbuf, poisons_app, poisons_candidates, poisons_replicate in Hrun by done.
  assert (k = 0%nat) as -> by lia. rewrite Hdrain in Hbuf by lia. done.
Qed.

(** ** Every hit is counted once *)

Lemma hits_of_cons (d : Document) (documents : list Document) (thr : float)
    (b : Document) :
  hits_of (d :: documents) thr b
    = ((if fge (calculate_alignment d b) thr then 1 else 0)
       + hits_of documents thr b)%nat.
Proof. unfold hits_of. simpl. by destruct (fge _ _). Qed.

Lemma step_hits_to_come (s s' : system) (e : event) :
  step s e s' →
  ((if is_hit e then 1 else 0) + hits_to_come s' = hits_to_come s)%nat.
Proof.
  intros Hstep. unfold hits_to_come.
  destruct (step_frame _ _ _ Hstep) as (Hd & _ & Ht & _).
  destruct (step_plan _ _ _ Hstep) as (Hplan & _).
  rewrite Hd, Ht, <- Hplan, sum_list_with_app. clear Hd Ht Hplan.
  destruct Hstep as [toks urls n Hpc|b toks urls n q' Hpc Hpush
    |k c q' Hpc Hk Hpush|k c Hpc Hk|j c Hpc Hj|j c Hpc Hj
    |i b q' Hi Hpop|i b d todo Hi|i b Hi]; simpl.
  - destruct (read_candidate_turn toks urls n s)
      as (_ & _ & _ & _ & _ & _ & -> & -> & _). lia.
  - apply push_Some in Hpush as [_ ->]. simpl.
    rewrite sum_list_with_app. simpl. lia.
  - apply push_Some in Hpush as [_ ->]. simpl.
    rewrite sum_list_with_app. simpl. lia.
  - lia.
  - lia.
  - destruct c; simpl; lia.
  - apply pop_Some in Hpop as [-> _]. simpl.
    pose proof (sum_list_with_insert (pending_hits (threshold s)) (consumers s)
      i WPop (if wordvec_empty b then WExit else WScore b (documents s)) Hi)
      as Hsum.
    assert (contribution (documents s) (threshold s) b
      = pending_hits (threshold s)
          (if wordvec_empty b then WExit else WScore b (documents s))) as ->.
    { unfold contribution. by destruct (wordvec_empty b). }
    simpl in Hsum. lia.
  - pose proof (sum_list_with_insert (pending_hits (threshold s)) (consumers s)
      i _ (WScore b todo) Hi) as Hsum.
    simpl in Hsum. rewrite hits_of_cons in Hsum.
    destruct (fge _ _); simpl; lia.
  - pose proof (sum_list_with_insert (pending_hits (threshold s)) (consumers s)
      i _ WPop Hi) as Hsum.
    simpl in Hsum. unfold hits_of in Hsum. simpl in Hsum. lia.
Qed.

Lemma run_hits_to_come (s0 s : system) (events : list event) :
  run s0 events s → (hit_count events + hits_to_come s = hits_to_come s0)%nat.
Proof.
  induction 1 as [|events s t e s' _ IH Hstep]; [done|].
  apply thread_step_step, step_hits_to_come in Hstep.
  rewrite hit_count_snoc. lia.
Qed.

Lemma contribution_candidates documents thr (pushed : list Document) :
  Forall (λ item, wordvec_empty item = false) pushed →
  sum_list_with (contribution documents thr) pushed
    = sum_list_with (hits_of documents thr) pushed.
Proof.
  induction 1 as [|item pushed Hitem _ IH]; [done|]. simpl.
  unfold contribution at 1. by rewrite Hitem, IH.
Qed.

Lemma contribution_poison documents thr (k : nat) :
  sum_list_with (contribution documents thr) (replicate k poison) = 0%nat.
Proof. induction k as [|k IH]; [done|]. simpl. by rewrite IH. Qed.

Lemma pending_hits_exited thr (ws : list worker) :
  Forall (λ w, w = WExit) ws → sum_list_with (pending_hits thr) ws = 0%nat.
Proof. induction 1 as [|w ws -> _ IH]; [done|]. simpl. by rewrite IH. Qed.

Lemma pending_hits_start thr (k : nat) :
  sum_list_with (pending_hits thr) (replicate k WPop) = 0%nat.
Proof. induction k as [|k IH]; [done|]. simpl. by rewrite IH. Qed.

Lemma candidate_loop_exits documents df toks urls n :
  let '(pushed, after, messages) := candidate_loop documents df toks urls n in
  (after = Tada ∧ messages = [])
  ∨ (∃ index, after = Return 3 ∧ messages = [ErrorReadingUrl index])
  ∨ (∃ index, after = Return 4 ∧ messages = [EmptyVocab index])
  ∨ (∃ index, after = Return 5 ∧ messages = [EmptyWordVec index]).
Proof.
  revert urls n. induction toks as [|v toks IH]; intros urls n; simpl; [by left|].
  destruct urls as [|u urls]; simpl; [right; left; eauto|].
  destruct (decide (v = ∅)); simpl; [right; right; left; eauto|].
  destruct (wordvec_empty _); simpl; [right; right; right; eauto|].
  specialize (IH urls (size_incr n)).
  by destruct (candidate_loop _ _ toks urls _) as [[? ?] ?].
Qed.

Lemma candidate_loop_after documents df toks urls n :
  (candidate_loop documents df toks urls n).1.2 = Tada
  ∨ status_of (candidate_loop documents df toks urls n).1.2 ≠ 0.
Proof.
  pose proof (candidate_loop_exits documents df toks urls n) as Hexit.
  destruct (candidate_loop _ _ toks urls n) as [[pushed after] messages].
  simpl. destruct Hexit as [[-> _]|[(? & -> & _)|[(? & -> & _)|(? & -> & _)]]];
    [by left|by right..].
Qed.

(** ** The start of the second phase *)

Section Start.
Variables (c : corpus) (toks : list (gmap N Z)) (urls : list string)
  (thr : float) (W : nat).

Let s0 : system := start c toks urls thr W.
Let planned : list Document :=
  (candidate_loop (c_documents c) (c_df c) toks urls 0).1.1.
Let after : continuation :=
  (candidate_loop (c_documents c) (c_df c) toks urls 0).1.2.
Let messages : list message :=
  (candidate_loop (c_documents c) (c_df c) toks urls 0).2.

Lemma start_plan :
  plan s0 = (planned ++ replicate W poison, status_of after, messages).
Proof.
  unfold plan, s0, planned, after, messages. simpl.
  by destruct (candidate_loop _ _ toks urls 0) as [[? ?] ?].
Qed.

Lemma start_size :
  (0 < W)%nat → Z.of_nat W * 4 < SIZE_MOD → 0 < _size (queue s0).
Proof. intros HW Hsmall. simpl. rewrite Z.mod_small; lia. Qed.

Lemma start_fifo_inv : fifo_inv s0.
Proof.
  exists [], 0%nat. simpl. repeat split; done.
Qed.

Lemma start_cout_inv : cout_inv (cout s0) s0.
Proof. done. Qed.

Lemma start_join_inv : join_inv s0 [].
Proof. done. Qed.

Lemma start_hits_to_come :
  hits_to_come s0 = sum_list_with (hits_of (c_documents c) thr) planned.
Proof.
  unfold hits_to_come. rewrite start_plan. simpl.
  rewrite pending_hits_start, sum_list_with_app, contribution_poison.
  rewrite contribution_candidates by apply candidate_loop_not_poison.
  fold planned. lia.
Qed.

Lemma after_Tada_or_error : after = Tada ∨ status_of after ≠ 0.
Proof. apply candidate_loop_after. Qed.

(** What a run has done by the exit of [main]. *)
Lemma run_exit (events : list event) (s : system) (code : Z) :
  (0 < W)%nat →
  run s0 events s → main_thread s = MExit code →
  code = status_of after
  ∧ cerr s = c_cerr c ++ messages
  ∧ cout s = match after with
             | Tada =>
               [Z.of_nat (sum_list_with (hits_of (c_documents c) thr) planned)
                `mod` SIZE_MOD]
             | Return _ => []
             end
  ∧ pushes events = planned ++ replicate W poison
  ∧ joins events = seq 0 W
  ∧ consumers s = replicate W WExit
  ∧ _buffer (queue s) = []
  ∧ hit_count events
    = sum_list_with (hits_of (c_documents c) thr) planned.
Proof.
  intros HW Hrun Hpc.
  pose proof (run_shutdown_inv _ _ _ Hrun (start_shutdown_inv _ _ _ _ _)) as Hinv.
  pose proof (run_fifo_inv _ _ _ Hrun (start_shutdown_inv _ _ _ _ _)
    start_fifo_inv) as Hfifo.
  pose proof (run_cout_inv _ _ _ Hrun (start_shutdown_inv _ _ _ _ _)
    start_cout_inv) as Hcout.
  pose proof (run_join_inv _ _ _ Hrun start_join_inv) as Hjoin.
  destruct (run_frame _ _ _ Hrun) as (Hd & _ & Ht & Hn & Hlen & _).
  destruct (run_plan _ _ _ Hrun) as (Hpushes & Hstatus & Hcerr).
  pose proof (run_hits_to_come _ _ _ Hrun) as Hcome.
  pose proof (run_hits _ _ _ Hrun) as Hhits.
  assert (0 ≤ hits s < SIZE_MOD) as Hrange.
  { eapply run_hits_range; [done|]. by simpl. }
  rewrite start_plan in *. unfold cout_inv, join_inv in *.
  unfold plan in Hpushes, Hstatus, Hcerr. rewrite Hpc in *. simpl in *.
  rewrite app_nil_r in *.
  assert (_buffer (queue s) = []) as Hbuf.
  { eapply exit_buffer_empty; [done..| |done]. by rewrite Hn. }
  destruct Hinv as (Hlen' & _ & Hall).
  rewrite Hpc in Hall. rewrite length_replicate in Hlen.
  assert (hit_count events
    = sum_list_with (hits_of (c_documents c) thr) planned) as Hcount.
  { rewrite start_hits_to_come in Hcome.
    unfold hits_to_come in Hcome. rewrite Hbuf in Hcome.
    rewrite pending_hits_exited in Hcome by done.
    unfold plan in Hcome. rewrite Hpc in Hcome. simpl in Hcome. lia. }
  split; [done|]. split; [done|].
  split; [|split; [done|split; [|split; [|split]]]].
  - rewrite Hcout. destruct after_Tada_or_error as [Htada|Herr].
    + rewrite Htada in *. simpl in *. subst code. simpl. f_equal.
      rewrite <- (Z.mod_small (hits s) SIZE_MOD) by done. rewrite Hhits.
      by rewrite Hcount.
    + rewrite decide_False by congruence. by destruct after.
  - by rewrite Hjoin, Hlen.
  - symmetry. apply replicate_as_elem_of. split; [done|].
    intros w Hw. rewrite Forall_forall in Hall. by apply Hall.
  - done.
  - done.
Qed.

End Start.

(** ** The whole program *)

Lemma main_expected (i : input) (out : outcome) : main i out → out = expected i.
Proof.
  destruct 1 as [i messages Hload|i c events s code Hload Hrun Hpc];
    unfold expected; rewrite Hload; [done|].
  destruct (run_exit c (english_tokens i) (english_urls i) (opt_threshold i)
    4 events s code) as (-> & -> & -> & _); [lia|done|done|].
  by destruct (candidate_loop _ _ _ _ 0) as [[pushed after] messages].
Qed.

Lemma main_total (i : input) : ∃ out, main i out.
Proof.
  destruct (load_corpus (translated_tokens i) (translated_urls i))
    as [messages|c] eqn:Hload.
  - eexists. by apply main_return_2.
  - destruct (run_to_exit
      (start c (english_tokens i) (english_urls i) (opt_threshold i) 4))
      as (events & s & code & Hrun & Hpc).
    + apply start_shutdown_inv.
    + apply start_size; [lia|reflexivity].
    + simpl. lia.
    + eexists. by eapply main_phase_2.
Qed.

Lemma main_iff_expected (i : input) (out : outcome) :
  main i out ↔ out = expected i.
Proof.
  split; [apply main_expected|]. intros ->.
  destruct (main_total i) as [out Hout].
  by rewrite <- (main_expected i out Hout).
Qed.

Lemma plan_poisons (s : system) :
  shutdown_inv s → poisons (plan s).1.1 = pending_poison s.
Proof.
  intros (_ & _ & Hmain). unfold plan, pending_poison.
  destruct (main_thread s) as [toks urls n|b toks urls n|k c|j c|code].
  - pose proof (candidate_loop_not_poison (documents s) (df s) toks urls n) as Hc.
    destruct (candidate_loop _ _ toks urls n) as [[pushed after] messages].
    simpl in *. by rewrite poisons_app, poisons_candidates, poisons_replicate.
  - pose proof (candidate_loop_not_poison (documents s) (df s) toks urls n) as Hc.
    destruct (candidate_loop _ _ toks urls n) as [[pushed after] messages].
    simpl in *. unfold poisons. simpl. rewrite Hmain.
    fold (poisons (pushed ++ replicate (n_threads s) poison)).
    by rewrite poisons_app, poisons_candidates, poisons_replicate.
  - simpl. apply poisons_replicate.
  - done.
  - done.
Qed.

Lemma pop_poison_exits (s : system) (i : nat) (item : Document)
    (q' : blocking_queue Document) :
  consumers s !! i = Some WPop → pop (queue s) = Some (item, q') →
  wordvec_empty item = true →
  ∃ s', thread_step (Consumer i) s = Some (Pop i item, s')
        ∧ consumers s' !! i = Some WExit
        ∧ queue s' = q'
        ∧ thread_step (Consumer i) s' = None.
Proof.
  intros Hi Hpop Hitem. simpl. unfold worker_step at 1.
  rewrite Hi, Hpop. simpl. rewrite Hitem. eexists. split; [done|].
  assert (consumers (set_consumer i WExit (set_queue q' s)) !! i = Some WExit)
    as Hexit.
  { simpl. apply list_lookup_insert_eq. by eapply lookup_lt_Some. }
  split; [done|]. split; [done|]. unfold worker_step. by rewrite Hexit.
Qed.

(** ** Results about the running system *)

(** C3.  With [W] consumers ([W] positive and small enough for the
    capacity [4 * W] to fit a [size_t]), in every run of the second
    phase: the run is finite, bounded by [steps_left] of the start state,
    and unless [main] has returned some thread can move, so every run can
    go on until [main] returns and none can go on for ever; the poison
    pushed so far and the poison still to be pushed add up to [W], poison
    is pushed only after the last candidate, and no consumer is joined
    before all of it is pushed; a consumer has popped one poison if it has
    left its loop and none otherwise; a consumer that pops poison leaves
    its loop, the queue keeps what was behind the poison (no requeue), and
    the consumer never moves again; when [main] has returned, all [W]
    consumers have left their loops after popping one poison each, the
    consumers were joined in order, the buffer is empty and nothing can
    move any more. *)
Theorem shutdown_protocol (c : corpus) (toks : list (gmap N Z))
    (urls : list string) (thr : float) (W : nat)
    (events : list event) (s : system) :
  (0 < W)%nat → Z.of_nat W * 4 < SIZE_MOD →
  run (start c toks urls thr W) events s →
  let planned := (candidate_loop (c_documents c) (c_df c) toks urls 0).1.1 in
  (length events ≤ steps_left (start c toks urls thr W))%nat
  ∧ ((∃ status, main_thread s = MExit status)
     ∨ (∃ t e s', thread_step t s = Some (e, s')))
  ∧ (∃ events' s' status,
       run s events' s' ∧ main_thread s' = MExit status)
  ∧ (poisons (pushes events) + pending_poison s = W)%nat
  ∧ pushes events ++ (plan s).1.1 = planned ++ replicate W poison
  ∧ Forall (λ item, wordvec_empty item = false) planned
  ∧ (joins events ≠ [] → poisons (pushes events) = W)
  ∧ (∀ i, poison_pops i events = exited_count (consumers s !! i))
  ∧ (∀ i item q',
       consumers s !! i = Some WPop → pop (queue s) = Some (item, q') →
       wordvec_empty item = true →
       ∃ s', thread_step (Consumer i) s = Some (Pop i item, s')
             ∧ consumers s' !! i = Some WExit
             ∧ queue s' = q'
             ∧ ∀ events' s'', run s' events' s'' →
                 consumers s'' !! i = Some WExit
                 ∧ worker_events i events' = [])
  ∧ (∀ status, main_thread s = MExit status →
       consumers s = replicate W WExit
       ∧ pushes events = planned ++ replicate W poison
       ∧ joins events = seq 0 W
       ∧ (∀ i, (i < W)%nat → poison_pops i events = 1%nat)
       ∧ _buffer (queue s) = []
       ∧ ∀ t, thread_step t s = None).
Proof.
  intros HW Hsmall Hrun planned.
  pose proof (start_shutdown_inv c toks urls thr W) as Hinv0.
  pose proof (run_shutdown_inv _ _ _ Hrun Hinv0) as Hinv.
  destruct (run_frame _ _ _ Hrun) as (_ & _ & _ & Hn & _ & Hsize).
  destruct (run_plan _ _ _ Hrun) as (Hpushes & _).
  rewrite start_plan in Hpushes. simpl in Hpushes. fold planned in Hpushes.
  pose proof (candidate_loop_not_poison (c_documents c) (c_df c) toks urls 0)
    as Hplanned. fold planned in Hplanned.
  assert (poisons (pushes events) + pending_poison s = W)%nat as Hpoison.
  { rewrite <- (plan_poisons s Hinv), <- poisons_app, Hpushes.
    by rewrite poisons_app, poisons_candidates, poisons_replicate. }
  split; [|split; [|split; [|split;
    [|split; [|split; [|split; [|split; [|split]]]]]]]].
  - pose proof (run_bounded _ _ _ Hrun). lia.
  - apply shutdown_progress; [done| |].
    + rewrite Hsize. by apply start_size.
    + by rewrite Hn.
  - apply run_to_exit; [done| |].
    + rewrite Hsize. by apply start_size.
    + by rewrite Hn.
  - done.
  - done.
  - done.
  - intros Hjoined.
    pose proof (run_join_inv _ _ _ Hrun (start_join_inv c toks urls thr W))
      as Hjoin.
    unfold join_inv, pending_poison in *.
    destruct (main_thread s); try done; lia.
  - intros i. pose proof (run_poison_pops _ _ _ i Hrun) as Hpops.
    simpl in Hpops.
    destruct (replicate W WPop !! i) as [w|] eqn:Hi.
    + apply lookup_replicate in Hi as [-> _]. simpl in Hpops. lia.
    + simpl in Hpops. lia.
  - intros i item q' Hi Hpop Hitem.
    destruct (pop_poison_exits s i item q' Hi Hpop Hitem)
      as (s' & Hstep & Hexit & Hq & _).
    exists s'. split; [done|]. split; [done|]. split; [done|].
    intros events' s'' Hrun'. by eapply run_exited.
  - intros status Hpc.
    destruct (run_exit c toks urls thr W events s status HW Hrun Hpc)
      as (_ & _ & _ & Hp & Hj & Hc & Hb & _).
    split; [done|]. split; [done|]. split; [done|].
    split; [|split; [done|]].
    + intros i Hi. pose proof (run_poison_pops _ _ _ i Hrun) as Hpops.
      simpl in Hpops. rewrite Hc in Hpops.
      rewrite !lookup_replicate_2 in Hpops by done. simpl in Hpops. lia.
    + intros t. by eapply exit_halted.
Qed.

(** ** Results about the queue *)

(** C4.  In every history of completed pushes and pops on a queue that
    starts empty, the items pushed are exactly the items popped followed
    by the items still buffered, in the same order: nothing is lost and
    nothing is duplicated; every pop removes the front of the buffer,
    which is the oldest item not yet popped; the [i]-th item popped is the
    [i]-th item pushed; and once the buffer is empty again, the items
    popped are the items pushed, as sequences and so as multisets.  The
    history is the order in which the operations took effect under the
    mutex, which for a single producer is the order of its calls.  The
    queue of the program is such a queue with the main thread as its
    single producer, and when [main] has returned it is drained: what the
    consumers have popped is what the main thread has pushed, in the same
    order. *)
Theorem queue_nothing_lost_fifo {T} (size : Z)
    (history : list (queue_event T)) (q : blocking_queue T) :
  queue_run (new_queue size) history q →
  pushed_items history = popped_items history ++ _buffer q
  ∧ popped_items history ++ _buffer q ≡ₚ pushed_items history
  ∧ (∀ i item, popped_items history !! i = Some item →
       pushed_items history !! i = Some item)
  ∧ (∀ item q', queue_step q (Popped item) q' →
       _buffer q = item :: _buffer q')
  ∧ (_buffer q = [] →
       popped_items history = pushed_items history
       ∧ popped_items history ≡ₚ pushed_items history)
  ∧ (∀ c toks urls thr W events s status,
       (0 < W)%nat →
       run (start c toks urls thr W) events s →
       main_thread s = MExit status →
       queue_run (new_queue ((Z.of_nat W * 4) `mod` SIZE_MOD))
         (queue_history events) (queue s)
       ∧ popped_items (queue_history events)
         = pushed_items (queue_history events)).
Proof.
  intros Hrun. pose proof (queue_run_conservation _ _ _ Hrun) as Hcons.
  simpl in Hcons. split; [done|]. split; [|split; [|split; [|split]]].
  - by rewrite Hcons.
  - intros i item Hi. rewrite Hcons. by apply lookup_app_l_Some.
  - intros item q' Hstep. inversion Hstep as [|? ? ? Hpop]; subst.
    by apply pop_Some in Hpop as [? _].
  - rewrite Hcons. intros ->. by rewrite app_nil_r.
  - intros c toks urls thr W events s status HW Hrun' Hpc.
    destruct (run_exit c toks urls thr W events s status HW Hrun' Hpc)
      as (_ & _ & _ & _ & _ & _ & Hbuf & _).
    apply run_queue_run in Hrun'. split; [done|].
    apply queue_run_conservation in Hrun'. simpl in Hrun'.
    by rewrite Hrun', Hbuf, app_nil_r.
Qed.

(** C5.  The capacity of a queue is the one given to its constructor and
    no operation changes it.  In every state reached from the empty queue
    the buffer holds at most that many items.  A push does not complete
    while the buffer holds at least [_size] items, and from such a state a
    push can only complete after some pop has completed.  A pop does not
    complete while the buffer is empty.  The queue of the program is
    constructed with capacity [n_threads * 4] and in every state of every
    run it has that capacity and at most that many documents buffered. *)
Theorem queue_capacity_bound {T} (size : Z)
    (history : list (queue_event T)) (q : blocking_queue T) :
  0 ≤ size →
  queue_run (new_queue size) history q →
  _size q = size
  ∧ Z.of_nat (length (_buffer q)) ≤ size
  ∧ (∀ item, size ≤ Z.of_nat (length (_buffer q)) → push item q = None)
  ∧ (∀ item more q',
       size ≤ Z.of_nat (length (_buffer q)) →
       queue_run q (more ++ [Pushed item]) q' →
       ∃ popped, Popped popped ∈ more)
  ∧ (_buffer q = [] → pop q = None)
  ∧ (∀ c toks urls thr W events s,
       run (start c toks urls thr W) events s →
       _size (queue s) = (Z.of_nat W * 4) `mod` SIZE_MOD
       ∧ Z.of_nat (length (_buffer (queue s))) ≤ _size (queue s)).
Proof.
  intros Hsize Hrun.
  pose proof (queue_run_size _ _ _ Hrun) as Hsz. simpl in Hsz.
  pose proof (queue_run_bounded _ _ _ Hrun) as Hbound. simpl in Hbound.
  split; [done|]. split; [lia|]. split; [|split; [|split]].
  - intros item Hfull. apply push_None. lia.
  - intros item more q' Hfull Hmore.
    inversion Hmore as [Hnil|history' q1 e q2 Hrun' Hstep Heq]; subst.
    { by destruct more. }
    apply app_inj_tail in Heq as [-> ->].
    apply queue_run_full_needs_pop in Hrun' as [[-> ->]|Hpop]; [|done|lia].
    inversion Hstep as [? ? ? Hpush|]; subst.
    apply push_Some in Hpush as [Hroom _]. lia.
  - intros Hempty. by apply pop_None.
  - intros c toks urls thr W events s Hrun'.
    apply run_queue_run in Hrun'. simpl in Hrun'.
    pose proof (queue_run_size _ _ _ Hrun') as Hsize'.
    pose proof (queue_run_bounded _ _ _ Hrun') as Hbound'. simpl in *.
    split; [done|]. apply Hbound'. by apply Z.mod_pos_bound.
Qed.

(** C6.  In every run, the events of a consumer are, for every
    non-poison candidate it has popped, the pop followed by one score per
    document of the reference corpus, in corpus order, each against that
    candidate and each flagged as a hit exactly when the score is at least
    the threshold (the block of the candidate it is working on may still
    be incomplete); the hit counter is the number of hit events so far
    (modulo [2^64]), so it moves by one for each score at or above the
    threshold and not at all for a score below; the hits of one block are
    the reference documents that the candidate hits; and when [main] has
    returned, every candidate pushed has been scored against the whole
    corpus. *)
Theorem consumer_scores_whole_corpus (c : corpus) (toks : list (gmap N Z))
    (urls : list string) (thr : float) (W : nat)
    (events : list event) (s : system) (i : nat) :
  (0 < W)%nat →
  run (start c toks urls thr W) events s →
  worker_log i (c_documents c) thr (consumers s !! i) (worker_events i events)
  ∧ hits s = Z.of_nat (hit_count events) `mod` SIZE_MOD
  ∧ (∀ buffer,
       hit_count (block i (c_documents c) thr buffer)
         = hits_of (c_documents c) thr buffer)
  ∧ (∀ status, main_thread s = MExit status →
       hit_count events
         = sum_list_with (hits_of (c_documents c) thr)
             (candidate_loop (c_documents c) (c_df c) toks urls 0).1.1).
Proof.
  intros HW Hrun. split; [|split; [|split]].
  - apply (run_worker_log _ _ _ i Hrun). apply start_worker_log.
  - pose proof (run_hits _ _ _ Hrun) as Hhits.
    change (hits (start c toks urls thr W)) with 0 in Hhits.
    rewrite Z.add_0_l in Hhits.
    rewrite <- Hhits. symmetry. apply Z.mod_small.
    eapply run_hits_range; [done|]. by simpl.
  - intros buffer. apply hit_count_block.
  - intros status Hpc.
    by destruct (run_exit c toks urls thr W events s status HW Hrun Hpc)
      as (_ & _ & _ & _ & _ & _ & _ & ?).
Qed.

(** C7.  When the first phase succeeds, the table it leaves is the
    aggregation over the reference documents as read, and in every state
    of every run of the second phase the table and the corpus are the ones
    the phase started with; whatever the candidate streams, the table is
    that same one; the documents pushed are, in order, candidates
    transformed with that table and the number of reference documents,
    followed by poison.  The candidate loop does transform and push: a
    document that the main thread is about to push is the candidate at
    the position given by the number of documents pushed so far,
    transformed with that table and that count; when the candidate
    streams begin with candidates that pass both guards, every run can go
    on until [main] returns and, when it has returned, the documents
    pushed begin with exactly those candidates, each transformed with the
    table and the count, and are exactly those followed by [W] poison
    when they were the whole stream; and at the return what was pushed is a prefix of
    the transformed candidate stream followed by [W] poison, every
    document of that prefix having been scored against the whole
    corpus. *)
Theorem df_fixed_before_candidates (ttoks : list (gmap N Z))
    (turls : list string) (c : corpus) (etoks : list (gmap N Z))
    (eurls : list string) (thr : float) (W : nat)
    (events : list event) (s : system) :
  load_corpus ttoks turls = inr c →
  run (start c etoks eurls thr W) events s →
  c_df c = aggregate_df (zip_with as_read turls ttoks)
  ∧ df (start c etoks eurls thr W) = c_df c
  ∧ df s = c_df c
  ∧ documents s = c_documents c
  ∧ length (documents s) = length ttoks
  ∧ (∀ etoks' eurls' thr' W' events' s',
       run (start c etoks' eurls' thr' W') events' s' → df s' = df s)
  ∧ (∃ planned,
       planned `prefix_of`
         zip_with (λ u v,
                     clear_vocab
                       (calculate_tfidf (as_read u v)
                          (Z.of_nat (length ttoks)) (c_df c)))
           eurls etoks
       ∧ pushes events `prefix_of` planned ++ replicate W poison)
  ∧ (∀ buffer toks urls n,
       main_thread s = MPush buffer toks urls n →
       zip_with (λ u v,
                   clear_vocab
                     (calculate_tfidf (as_read u v)
                        (Z.of_nat (length ttoks)) (c_df c)))
         eurls etoks !! length (pushes events) = Some buffer)
  ∧ (∀ us vs urls toks,
       eurls = us ++ urls → etoks = vs ++ toks →
       Forall2 (passes_guards (c_documents c) (c_df c)) us vs →
       (0 < W)%nat → Z.of_nat W * 4 < SIZE_MOD →
       (∃ events' s' status,
          run s events' s' ∧ main_thread s' = MExit status)
       ∧ (∀ status, main_thread s = MExit status →
            zip_with (λ u v,
                        clear_vocab
                          (calculate_tfidf (as_read u v)
                             (Z.of_nat (length ttoks)) (c_df c)))
              us vs `prefix_of` pushes events
            ∧ (toks = [] →
               status = 0
               ∧ pushes events
                 = zip_with (λ u v,
                               clear_vocab
                                 (calculate_tfidf (as_read u v)
                                    (Z.of_nat (length ttoks)) (c_df c)))
                     us vs
                   ++ replicate W poison)))
  ∧ (∀ status,
       (0 < W)%nat → main_thread s = MExit status →
       ∃ planned,
         planned `prefix_of`
           zip_with (λ u v,
                       clear_vocab
                         (calculate_tfidf (as_read u v)
                            (Z.of_nat (length ttoks)) (c_df c)))
             eurls etoks
         ∧ pushes events = planned ++ replicate W poison
         ∧ hit_count events
           = sum_list_with (hits_of (c_documents c) thr) planned).
Proof.
  intros Hload Hrun.
  destruct (decide (length ttoks ≤ length turls)%nat) as [Hlen|Hlen].
  2:{ rewrite load_corpus_short in Hload by lia. done. }
  rewrite load_corpus_paired in Hload by done. injection Hload as <-.
  destruct (run_frame _ _ _ Hrun) as (Hd & Hdf & _ & Hn & _ & Hsize).
  cbn [c_df c_documents] in *. simpl in Hd, Hdf, Hn.
  set (table := aggregate_df (zip_with as_read turls ttoks)) in *.
  set (reference := transform_documents (zip_with as_read turls ttoks) table)
    in *.
  set (c := {| c_documents := reference; c_df := table;
               c_cerr := [ReadDocuments (Z.of_nat (length ttoks));
                          AggregatedDF; CalculatedTFIDF] |}) in *.
  assert (length reference = length ttoks) as Hcount.
  { unfold reference. rewrite length_transform_documents, length_zip_with. lia. }
  assert (∀ us vs,
    zip_with (λ u v,
                clear_vocab
                  (calculate_tfidf (as_read u v)
                     (Z.of_nat (length ttoks)) table)) us vs
    = zip_with (candidate reference table) us vs) as Hsame.
  { intros us vs. unfold candidate, as_read. by rewrite Hcount. }
  pose proof (run_plan _ _ _ Hrun) as (Hpushes & _).
  rewrite start_plan in Hpushes. cbn [fst snd c_documents c_df c] in Hpushes.
  pose proof (candidate_loop_prefix reference table etoks eurls 0) as Hprefix.
  split; [done|]. split; [done|]. split; [done|]. split; [done|].
  split; [by rewrite Hd|]. split; [|split; [|split; [|split]]].
  - intros etoks' eurls' thr' W' events' s' Hrun'.
    destruct (run_frame _ _ _ Hrun') as (_ & Hdf' & _). simpl in Hdf'.
    by rewrite Hdf, Hdf'.
  - eexists. split; [|by eexists]. by rewrite Hsame.
  - intros buffer toks urls n Hpc. rewrite Hsame.
    unfold plan in Hpushes. rewrite Hpc, Hd, Hdf, Hn in Hpushes.
    destruct (candidate_loop reference table toks urls n)
      as [[pushed after] messages].
    cbn [fst snd] in Hpushes.
    rewrite app_comm_cons, app_assoc in Hpushes.
    apply app_inv_tail in Hpushes.
    destruct Hprefix as [rest ->]. rewrite <- Hpushes.
    rewrite <- app_assoc, <- app_comm_cons. by apply list_lookup_middle.
  - intros us vs urls toks -> -> Hpass HW Hsmall.
    pose proof (candidate_loop_passed reference table us vs toks urls 0 Hpass)
      as Hloop.
    split.
    + apply run_to_exit.
      * apply (run_shutdown_inv _ _ _ Hrun). apply start_shutdown_inv.
      * rewrite Hsize. by apply start_size.
      * by rewrite Hn.
    + intros status Hpc. rewrite Hsame.
      destruct (run_exit c _ _ thr W events s status HW Hrun Hpc)
        as (Hstatus & _ & _ & Hall & _).
      cbn [c_documents c_df c] in Hstatus, Hall.
      rewrite Hloop in Hstatus, Hall. split.
      * destruct (candidate_loop reference table toks urls _)
          as [[pushed after] messages].
        cbn [fst snd] in Hall. rewrite Hall, <- app_assoc. by eexists.
      * intros ->. simpl in Hstatus, Hall.
        by rewrite app_nil_r in Hall.
  - intros status HW Hpc.
    destruct (run_exit c etoks eurls thr W events s status HW Hrun Hpc)
      as (_ & _ & _ & Hall & _ & _ & _ & Hhits).
    eexists. split; [|split; [exact Hall|exact Hhits]]. by rewrite Hsame.
Qed.

Lemma candidate_loop_degenerate documents df us vs u v toks urls :
  Forall2 (passes_guards documents df) us vs →
  wordvec (calculate_tfidf (as_read u v) (Z.of_nat (length documents)) df) = [] →
  let index := Z.of_nat (S (length vs)) `mod` SIZE_MOD in
  candidate_loop documents df (vs ++ v :: toks) (us ++ u :: urls) 0
    = (zip_with (candidate documents df) us vs,
       Return (if decide (v = ∅) then 4 else 5),
       [if decide (v = ∅) then EmptyVocab index else EmptyWordVec index]).
Proof.
  intros Hpass Hempty index.
  rewrite candidate_loop_passed by done.
  cbn [candidate_loop].
  assert (size_incr (Nat.iter (length vs) size_incr 0) = index) as ->.
  { unfold index. rewrite <- iter_size_incr_0. done. }
  destruct (decide (v = ∅)); [by rewrite app_nil_r|].
  cbn zeta.
  assert (wordvec_empty (candidate documents df u v) = true) as ->.
  { unfold wordvec_empty, candidate, as_read in *. simpl. by rewrite Hempty. }
  by rewrite app_nil_r.
Qed.

(** C8, as the code has it.  The guard is on the candidate loop.  Take a
    candidate stream in which some candidate, with its label, comes after
    candidates that all pass both guards, and whose transform yields an
    empty weight vector.  Then in every run: what is pushed is a prefix of
    the earlier candidates followed by poison, and none of those has an
    empty weight vector, so the degenerate document never reaches the
    queue; the run can go on until [main] returns; and when [main] has
    returned, its status is 5 (4 when the [vocab] itself was empty and
    the transform was not even called), the last line on [cerr] names the
    one-based index of the document, no count was printed, all [W] poison
    were pushed and all [W] consumers have been joined and have left their
    loops. *)
Theorem degenerate_candidate_is_fatal (c : corpus) (us : list string)
    (vs : list (gmap N Z)) (u : string) (v : gmap N Z)
    (toks : list (gmap N Z)) (urls : list string) (thr : float) (W : nat)
    (events : list event) (s : system) :
  (0 < W)%nat → Z.of_nat W * 4 < SIZE_MOD →
  Forall2 (passes_guards (c_documents c) (c_df c)) us vs →
  wordvec (calculate_tfidf (as_read u v)
             (Z.of_nat (length (c_documents c))) (c_df c)) = [] →
  run (start c (vs ++ v :: toks) (us ++ u :: urls) thr W) events s →
  let index := Z.of_nat (S (length vs)) `mod` SIZE_MOD in
  let passed := zip_with (candidate (c_documents c) (c_df c)) us vs in
  pushes events `prefix_of` passed ++ replicate W poison
  ∧ Forall (λ item, wordvec_empty item = false) passed
  ∧ (∃ events' s' status, run s events' s' ∧ main_thread s' = MExit status)
  ∧ (∀ status, main_thread s = MExit status →
       status = (if decide (v = ∅) then 4 else 5)
       ∧ cerr s = c_cerr c ++ [if decide (v = ∅) then EmptyVocab index
                               else EmptyWordVec index]
       ∧ cout s = []
       ∧ pushes events = passed ++ replicate W poison
       ∧ joins events = seq 0 W
       ∧ consumers s = replicate W WExit).
Proof.
  intros HW Hsmall Hpass Hempty Hrun index passed.
  pose proof (candidate_loop_degenerate _ _ _ _ _ _ toks urls Hpass Hempty)
    as Hloop. cbn zeta in Hloop. fold index passed in Hloop.
  pose proof (start_shutdown_inv c (vs ++ v :: toks) (us ++ u :: urls) thr W)
    as Hinv0.
  pose proof (run_shutdown_inv _ _ _ Hrun Hinv0) as Hinv.
  destruct (run_frame _ _ _ Hrun) as (_ & _ & _ & Hn & _ & Hsize).
  split; [|split; [|split]].
  - destruct (run_plan _ _ _ Hrun) as (Hpushes & _).
    rewrite start_plan, Hloop in Hpushes. simpl in Hpushes. by eexists.
  - pose proof (candidate_loop_not_poison (c_documents c) (c_df c)
      (vs ++ v :: toks) (us ++ u :: urls) 0) as Hnot.
    by rewrite Hloop in Hnot.
  - apply run_to_exit; [done| |].
    + rewrite Hsize. by apply start_size.
    + by rewrite Hn.
  - intros status Hpc.
    destruct (run_exit c _ _ thr W events s status HW Hrun Hpc)
      as (Hstatus & Hcerr & Hcout & Hpushes & Hjoins & Hcons & _).
    rewrite Hloop in *. simpl in *. done.
Qed.

(** C9.  A reference corpus in which every document has a label is
    loaded whole, whatever the documents are: the first phase succeeds,
    writes its three progress lines and nothing else, and the corpus is,
    in order, every document read, transformed, with an empty [vocab] or
    an empty weight vector just as with any other.  The same condition on
    a candidate (after candidates that pass the guards) ends every run
    with status 4 or 5 and without a count.  And the run does end: no run
    is longer than the bound of the start state, and every run can be
    continued to the return of [main], with that status, the error line
    as the last line on [cerr], nothing on [cout], every consumer stopped
    and the documents after the degenerate one never read.  For the
    program as a whole, with the corpus loaded from these reference
    streams: [main] returns, and what it returns is exactly this
    failure. *)
Theorem empty_guard_only_on_candidates (ttoks : list (gmap N Z))
    (turls : list string) :
  (length ttoks ≤ length turls)%nat →
  (∃ c,
     load_corpus ttoks turls = inr c
     ∧ c_cerr c = [ReadDocuments (Z.of_nat (length ttoks));
                   AggregatedDF; CalculatedTFIDF]
     ∧ c_documents c
       = (λ document,
            clear_vocab
              (calculate_tfidf document (Z.of_nat (length ttoks)) (c_df c)))
         <$> zip_with as_read turls ttoks
     ∧ length (c_documents c) = length ttoks)
  ∧ (∀ c us vs u v toks urls thr W events s status,
       (0 < W)%nat →
       Forall2 (passes_guards (c_documents c) (c_df c)) us vs →
       wordvec (calculate_tfidf (as_read u v)
                  (Z.of_nat (length (c_documents c))) (c_df c)) = [] →
       run (start c (vs ++ v :: toks) (us ++ u :: urls) thr W) events s →
       main_thread s = MExit status →
       status = (if decide (v = ∅) then 4 else 5) ∧ cout s = [])
  ∧ (∀ c us vs u v toks urls thr W events s,
       (0 < W)%nat → Z.of_nat W * 4 < SIZE_MOD →
       Forall2 (passes_guards (c_documents c) (c_df c)) us vs →
       wordvec (calculate_tfidf (as_read u v)
                  (Z.of_nat (length (c_documents c))) (c_df c)) = [] →
       run (start c (vs ++ v :: toks) (us ++ u :: urls) thr W) events s →
       (length events + steps_left s
        ≤ steps_left (start c (vs ++ v :: toks) (us ++ u :: urls) thr W))%nat
       ∧ ∃ events' s',
           run s events' s'
           ∧ main_thread s'
             = MExit (if decide (v = ∅) then 4 else 5)
           ∧ cerr s'
             = c_cerr c
               ++ [if decide (v = ∅)
                   then EmptyVocab (Z.of_nat (S (length vs)) `mod` SIZE_MOD)
                   else EmptyWordVec (Z.of_nat (S (length vs)) `mod` SIZE_MOD)]
           ∧ cout s' = []
           ∧ consumers s' = replicate W WExit
           ∧ pushes (events ++ events')
             = zip_with (candidate (c_documents c) (c_df c)) us vs
               ++ replicate W poison
           ∧ ∀ t, thread_step t s' = None)
  ∧ (∀ c us vs u v toks urls thr out,
       load_corpus ttoks turls = inr c →
       Forall2 (passes_guards (c_documents c) (c_df c)) us vs →
       wordvec (calculate_tfidf (as_read u v)
                  (Z.of_nat (length (c_documents c))) (c_df c)) = [] →
       main {| translated_tokens := ttoks;
               translated_urls := turls;
               english_tokens := vs ++ v :: toks;
               english_urls := us ++ u :: urls;
               opt_threshold := thr |} out
       ↔ out
         = {| status := (if decide (v = ∅) then 4 else 5);
              written_cerr :=
                [ReadDocuments (Z.of_nat (length ttoks));
                 AggregatedDF; CalculatedTFIDF;
                 if decide (v = ∅)
                 then EmptyVocab (Z.of_nat (S (length vs)) `mod` SIZE_MOD)
                 else EmptyWordVec (Z.of_nat (S (length vs)) `mod` SIZE_MOD)];
              written_cout := [] |}).
Proof.
  intros Hlen. split; [|split; [|split]].
  - eexists. split; [by apply load_corpus_paired|]. simpl.
    assert (length (zip_with as_read turls ttoks) = length ttoks) as Hread.
    { rewrite length_zip_with. lia. }
    split; [done|]. split.
    + unfold transform_documents. by rewrite Hread.
    + by rewrite length_transform_documents.
  - intros c us vs u v toks urls thr W events s status HW Hpass Hempty Hrun Hpc.
    pose proof (candidate_loop_degenerate _ _ _ _ _ _ toks urls Hpass Hempty)
      as Hloop. cbn zeta in Hloop.
    destruct (run_exit c _ _ thr W events s status HW Hrun Hpc)
      as (Hstatus & _ & Hcout & _).
    rewrite Hloop in *. simpl in *. done.
  - intros c us vs u v toks urls thr W events s HW Hsmall Hpass Hempty Hrun.
    pose proof (candidate_loop_degenerate _ _ _ _ _ _ toks urls Hpass Hempty)
      as Hloop. cbn zeta in Hloop.
    split; [by apply run_bounded|].
    pose proof (run_shutdown_inv _ _ _ Hrun
      (start_shutdown_inv c (vs ++ v :: toks) (us ++ u :: urls) thr W)) as Hinv.
    destruct (run_frame _ _ _ Hrun) as (_ & _ & _ & Hn & _ & Hsize).
    destruct (run_to_exit s) as (events' & s' & status & Hrun' & Hpc).
    { done. }
    { rewrite Hsize. by apply start_size. }
    { by rewrite Hn. }
    pose proof (run_app _ _ _ _ _ Hrun Hrun') as Hwhole.
    destruct (run_exit c _ _ thr W _ s' status HW Hwhole Hpc)
      as (Hstatus & Hcerr & Hcout & Hpushes & _ & Hcons & _).
    rewrite Hloop in *. cbn [fst snd] in *.
    exists events', s'. split; [done|]. split.
    { rewrite Hpc, Hstatus. by destruct (decide (v = ∅)). }
    split; [done|]. split.
    { by destruct (decide (v = ∅)). }
    split; [done|]. split; [done|].
    intros t. eapply exit_halted; [|done].
    by apply (run_shutdown_inv _ _ _ Hrun').
  - intros c us vs u v toks urls thr out Hload Hpass Hempty.
    pose proof (candidate_loop_degenerate _ _ _ _ _ _ toks urls Hpass Hempty)
      as Hloop. cbn zeta in Hloop.
    rewrite main_iff_expected. unfold expected. cbn [translated_tokens
      translated_urls english_tokens english_urls opt_threshold].
    rewrite Hload, Hloop.
    rewrite load_corpus_paired in Hload by done. injection Hload as <-.
    cbn [c_cerr]. by destruct (decide (v = ∅)).
Qed.






(** ** Further results: the work of the consumers *)

Lemma scored_weight_snoc f (events : list event) (e : event) :
  scored_weight f (events ++ [e])
    = (scored_weight f events + score_weight f e)%nat.
Proof. unfold scored_weight. rewrite sum_list_with_app. simpl. lia. Qed.

Lemma step_weight_to_come f (s s' : system) (e : event) :
  step s e s' →
  (score_weight f e + weight_to_come f s' = weight_to_come f s)%nat.
Proof.
  intros Hstep. unfold weight_to_come.
  destruct (step_frame _ _ _ Hstep) as (Hd & _).
  destruct (step_plan _ _ _ Hstep) as (Hplan & _).
  rewrite Hd, <- Hplan, sum_list_with_app. clear Hd Hplan.
  destruct Hstep as [toks urls n Hpc|b toks urls n q' Hpc Hpush
    |k c q' Hpc Hk Hpush|k c Hpc Hk|j c Hpc Hj|j c Hpc Hj
    |i b q' Hi Hpop|i b d todo Hi|i b Hi]; simpl.
  - destruct (read_candidate_turn toks urls n s)
      as (_ & _ & _ & _ & _ & _ & -> & -> & _). lia.
  - apply push_Some in Hpush as [_ ->]. simpl.
    rewrite sum_list_with_app. simpl. lia.
  - apply push_Some in Hpush as [_ ->]. simpl.
    rewrite sum_list_with_app. simpl. lia.
  - lia.
  - lia.
  - destruct c; simpl; lia.
  - apply pop_Some in Hpop as [-> _]. simpl.
    pose proof (sum_list_with_insert (worker_weight f) (consumers s)
      i WPop (if wordvec_empty b then WExit else WScore b (documents s)) Hi)
      as Hsum.
    assert (item_weight f (documents s) b
      = worker_weight f
          (if wordvec_empty b then WExit else WScore b (documents s))) as ->.
    { unfold item_weight. by destruct (wordvec_empty b). }
    simpl in Hsum. lia.
  - pose proof (sum_list_with_insert (worker_weight f) (consumers s)
      i _ (WScore b todo) Hi) as Hsum.
    simpl in Hsum. unfold corpus_weight in *. simpl in *. lia.
  - pose proof (sum_list_with_insert (worker_weight f) (consumers s)
      i _ WPop Hi) as Hsum.
    simpl in Hsum. unfold corpus_weight in Hsum. simpl in Hsum. lia.
Qed.

Lemma run_weight_to_come f (s0 s : system) (events : list event) :
  run s0 events s →
  (scored_weight f events + weight_to_come f s = weight_to_come f s0)%nat.
Proof.
  induction 1 as [|events s t e s' _ IH Hstep]; [done|].
  apply thread_step_step, (step_weight_to_come f) in Hstep.
  rewrite scored_weight_snoc. lia.
Qed.

Lemma item_weight_candidates f documents (pushed : list Document) :
  Forall (λ item, wordvec_empty item = false) pushed →
  sum_list_with (item_weight f documents) pushed
    = sum_list_with (corpus_weight f documents) pushed.
Proof.
  induction 1 as [|item pushed Hitem _ IH]; [done|]. simpl.
  unfold item_weight at 1. by rewrite Hitem, IH.
Qed.

Lemma item_weight_poison f documents (k : nat) :
  sum_list_with (item_weight f documents) (replicate k poison) = 0%nat.
Proof. induction k as [|k IH]; [done|]. simpl. by rewrite IH. Qed.

Lemma worker_weight_exited f (ws : list worker) :
  Forall (λ w, w = WExit) ws → sum_list_with (worker_weight f) ws = 0%nat.
Proof. induction 1 as [|w ws -> _ IH]; [done|]. simpl. by rewrite IH. Qed.

Lemma worker_weight_start f (k : nat) :
  sum_list_with (worker_weight f) (replicate k WPop) = 0%nat.
Proof. induction k as [|k IH]; [done|]. simpl. by rewrite IH. Qed.

Lemma corpus_weight_one (documents : list Document) (b : Document) :
  corpus_weight (λ _ _, 1%nat) documents b = length documents.
Proof.
  unfold corpus_weight. induction documents as [|d documents IH]; [done|].
  simpl. by rewrite IH.
Qed.

Lemma sum_corpus_weight_one (documents pushed : list Document) :
  sum_list_with (corpus_weight (λ _ _, 1%nat) documents) pushed
    = (length pushed * length documents)%nat.
Proof.
  induction pushed as [|b pushed IH]; [done|].
  simpl. by rewrite corpus_weight_one, IH.
Qed.

(** X1.  When [main] has returned, the pairs that the consumers have
    scored are, counted with multiplicity, exactly the pairs of a pushed
    candidate and a reference document: for every way [f] of weighing a
    pair, the weight of the score events of the run is the weight of all
    those pairs.  In particular the number of calls of the scorer is the
    number of candidates pushed times the size of the corpus, whatever the
    schedule and the number of consumers. *)
Theorem every_pair_is_scored_once (c : corpus) (toks : list (gmap N Z))
    (urls : list string) (thr : float) (W : nat)
    (events : list event) (s : system) (status : Z) :
  (0 < W)%nat →
  run (start c toks urls thr W) events s →
  main_thread s = MExit status →
  let planned := (candidate_loop (c_documents c) (c_df c) toks urls 0).1.1 in
  (∀ f, scored_weight f events
        = sum_list_with (corpus_weight f (c_documents c)) planned)
  ∧ scored_weight (λ _ _, 1%nat) events
    = (length planned * length (c_documents c))%nat.
Proof.
  intros HW Hrun Hpc planned.
  assert (∀ f, scored_weight f events
               = sum_list_with (corpus_weight f (c_documents c)) planned)
    as Hall.
  { intros f. pose proof (run_weight_to_come f _ _ _ Hrun) as Hcome.
    destruct (run_exit c toks urls thr W events s status HW Hrun Hpc)
      as (_ & _ & _ & _ & _ & Hcons & Hbuf & _).
    destruct (run_frame _ _ _ Hrun) as (Hd & _).
    unfold weight_to_come in Hcome. rewrite Hbuf, Hcons in Hcome.
    rewrite worker_weight_exited in Hcome by (by apply Forall_replicate).
    unfold plan at 1 in Hcome. rewrite Hpc in Hcome.
    rewrite start_plan in Hcome. simpl in Hcome.
    rewrite worker_weight_start, sum_list_with_app, item_weight_poison in Hcome.
    rewrite item_weight_candidates in Hcome
      by apply candidate_loop_not_poison.
    fold planned in Hcome. lia. }
  split; [done|]. rewrite Hall. apply sum_corpus_weight_one.
Qed.

(** X2.  The outcome of the second phase does not depend on the schedule
    nor on the number of consumers: two runs from the same corpus,
    candidate streams and threshold, with any positive numbers of
    consumers, that both reach the return of [main] leave the same exit
    status, the same lines on [cerr], the same output on [cout] and the
    same number of hits, which is the number of pairs (reference document,
    pushed candidate) whose score is at least the threshold. *)
Theorem outcome_is_schedule_independent (c : corpus) (toks : list (gmap N Z))
    (urls : list string) (thr : float) (W W' : nat)
    (events events' : list event) (s s' : system) (status status' : Z) :
  (0 < W)%nat → (0 < W')%nat →
  run (start c toks urls thr W) events s → main_thread s = MExit status →
  run (start c toks urls thr W') events' s' → main_thread s' = MExit status' →
  status = status'
  ∧ cerr s = cerr s'
  ∧ cout s = cout s'
  ∧ hit_count events = hit_count events'
  ∧ hit_count events
    = sum_list_with (hits_of (c_documents c) thr)
        (candidate_loop (c_documents c) (c_df c) toks urls 0).1.1
  ∧ hits s = hits s'.
Proof.
  intros HW HW' Hrun Hpc Hrun' Hpc'.
  destruct (run_exit c toks urls thr W events s status HW Hrun Hpc)
    as (-> & -> & -> & _ & _ & _ & _ & Hcount).
  destruct (run_exit c toks urls thr W' events' s' status' HW' Hrun' Hpc')
    as (-> & -> & -> & _ & _ & _ & _ & Hcount').
  split; [done|]. split; [done|]. split; [done|].
  split; [by rewrite Hcount, Hcount'|]. split; [done|].
  pose proof (run_hits _ _ _ Hrun) as Hhits.
  pose proof (run_hits _ _ _ Hrun') as Hhits'.
  rewrite <- (Z.mod_small (hits s) SIZE_MOD), <- (Z.mod_small (hits s') SIZE_MOD).
  - rewrite Hhits, Hhits'. simpl. by rewrite Hcount, Hcount'.
  - eapply run_hits_range; [exact Hrun'|]. by simpl.
  - eapply run_hits_range; [exact Hrun|]. by simpl.
Qed.

(** ** Further results: how a run ends *)



(** X4.  When the reference labels run out before the reference
    documents, [main] returns 2 at once: the only line on [cerr] is the
    error, which carries the number of labels there were (the index of the
    first document without one), nothing is printed, and the candidate
    streams and the threshold play no part in the outcome. *)
Theorem missing_reference_label_stops_early (i : input) :
  (length (translated_urls i) < length (translated_tokens i))%nat →
  ∀ out,
    main i out ↔
    out = {| status := 2;
             written_cerr :=
               [ErrorReadingUrlRef (Z.of_nat (length (translated_urls i)))];
             written_cout := [] |}.
Proof.
  intros Hshort out. rewrite main_iff_expected. unfold expected.
  by rewrite load_corpus_short.
Qed.


Lemma candidate_loop_stops documents df us vs u v toks urls toks' urls' :
  Forall2 (passes_guards documents df) us vs →
  ¬ passes_guards documents df u v →
  candidate_loop documents df (vs ++ v :: toks) (us ++ u :: urls) 0
    = candidate_loop documents df (vs ++ v :: toks') (us ++ u :: urls') 0.
Proof.
  intros Hpass Hfail. rewrite !candidate_loop_passed by done.
  cbn [candidate_loop]. destruct (decide (v = ∅)); [done|]. cbn zeta.
  destruct (wordvec_empty (candidate documents df u v)) eqn:Hwv; [done|].
  destruct Hfail. by split.
Qed.

(** X6.  Reading stops at the first candidate that fails a guard: when a
    candidate without terms or without weights comes after candidates that
    pass, whatever follows it in the token stream and in the label stream
    is never looked at, so two inputs that agree up to that candidate have
    the same outcomes. *)
Theorem nothing_is_read_after_the_first_failure (i : input) (c : corpus)
    (us : list string) (vs : list (gmap N Z)) (u : string) (v : gmap N Z)
    (toks toks' : list (gmap N Z)) (urls urls' : list string) (out : outcome) :
  load_corpus (translated_tokens i) (translated_urls i) = inr c →
  Forall2 (passes_guards (c_documents c) (c_df c)) us vs →
  ¬ passes_guards (c_documents c) (c_df c) u v →
  english_tokens i = vs ++ v :: toks →
  english_urls i = us ++ u :: urls →
  main i out ↔
  main {| translated_tokens := translated_tokens i;
          translated_urls := translated_urls i;
          english_tokens := vs ++ v :: toks';
          english_urls := us ++ u :: urls';
          opt_threshold := opt_threshold i |} out.
Proof.
  intros Hload Hpass Hfail Htoks Hurls.
  rewrite !main_iff_expected. unfold expected. simpl.
  rewrite Hload, Htoks, Hurls.
  rewrite (candidate_loop_stops _ _ _ _ _ _ toks urls toks' urls' Hpass Hfail).
  destruct (candidate_loop _ _ _ _ 0) as [[pushed after] messages]. done.
Qed.

(** ** Further results: the frequency table *)

Lemma document_frequency_zero (term : N) (documents : list Document) :
  document_frequency term documents = 0%nat ↔
  Forall (λ document, vocab document !! term = None) documents.
Proof.
  induction documents as [|d documents IH].
  - split; [constructor|done].
  - rewrite document_frequency_cons, Forall_cons.
    destruct (decide (is_Some (vocab d !! term))) as [Hin|Hout].
    + split; [lia|]. intros [Hnone _]. rewrite Hnone in Hin. by destruct Hin.
    + rewrite IH. split; [|tauto]. intros Hall. split; [|done].
      destruct (vocab d !! term) eqn:E; [|done]. destruct Hout. eauto.
Qed.

Lemma document_frequency_app (term : N) (a b : list Document) :
  document_frequency term (a ++ b)
    = (document_frequency term a + document_frequency term b)%nat.
Proof. unfold document_frequency. by rewrite filter_app, length_app. Qed.

Lemma document_frequency_perm (term : N) (a b : list Document) :
  a ≡ₚ b → document_frequency term a = document_frequency term b.
Proof. intros Hperm. unfold document_frequency. by rewrite Hperm. Qed.

Lemma aggregate_df_lookup (documents : list Document) (term : N) :
  aggregate_df documents !! term
    = if decide (document_frequency term documents = 0%nat) then None
      else Some (Z.of_nat (document_frequency term documents) `mod` SIZE_MOD).
Proof.
  unfold aggregate_df. rewrite foldl_df_add_document_lookup, lookup_empty.
  by case_decide.
Qed.

(** X7.  For a corpus whose length fits a [size_t], every entry of the
    table is at least 1 and at most the number of documents, and its term
    occurs in some document; a term has no entry exactly when no document
    contains it, so a term that only candidates have is a missing key, not
    a zero. *)
Theorem df_entries_are_positive_and_bounded (documents : list Document)
    (term : N) :
  Z.of_nat (length documents) < SIZE_MOD →
  (∀ count, aggregate_df documents !! term = Some count →
     1 ≤ count ≤ Z.of_nat (length documents)
     ∧ ∃ document, document ∈ documents ∧ is_Some (vocab document !! term))
  ∧ (aggregate_df documents !! term = None ↔
     Forall (λ document, vocab document !! term = None) documents)
  ∧ (term ∈ dom (aggregate_df documents) ↔
     ∃ document, document ∈ documents ∧ term ∈ dom (vocab document)).
Proof.
  intros Hlen. pose proof (document_frequency_le term documents) as Hle.
  pose proof (document_frequency_zero term documents) as Hzero.
  assert (Z.of_nat (document_frequency term documents) `mod` SIZE_MOD
          = Z.of_nat (document_frequency term documents)) as Hsmall.
  { apply Z.mod_small. lia. }
  assert (document_frequency term documents ≠ 0%nat →
          ∃ document, document ∈ documents ∧ is_Some (vocab document !! term))
    as Hsome.
  { intros Hne. rewrite Hzero in Hne.
    apply not_Forall_Exists in Hne; [|intros d; apply _].
    apply Exists_exists in Hne as (d & Hin & Hd). exists d. split; [done|].
    simpl in Hd. destruct (vocab d !! term); [eauto|]. by destruct Hd. }
  rewrite aggregate_df_lookup, Hsmall. split; [|split].
  - intros count. case_decide as Hc; [done|]. intros [= <-].
    split; [lia|]. by apply Hsome.
  - case_decide as Hc; split; try done.
    + intros _. by apply Hzero.
    + intros Hall. by apply Hzero in Hall.
  - rewrite elem_of_dom, aggregate_df_lookup, Hsmall. split.
    + case_decide as Hc; [by intros []|]. intros _.
      destruct (Hsome Hc) as (d & Hin & Hd). exists d. split; [done|].
      by apply elem_of_dom.
    + intros (d & Hin & Hd). apply elem_of_dom in Hd.
      rewrite decide_False; [eauto|]. rewrite Hzero, Forall_forall.
      intros Hall. rewrite (Hall d Hin) in Hd. by destruct Hd.
Qed.

(** X8.  Aggregation composes.  The table of two corpora put one after
    the other has, for every term, the sum of the two counts (a missing
    entry counting as zero), as long as the whole fits a [size_t], and the
    table does not depend on the order of the documents. *)
Theorem df_of_concatenation_adds (a b : list Document) (term : N) :
  Z.of_nat (length (a ++ b)) < SIZE_MOD →
  default 0 (aggregate_df (a ++ b) !! term)
    = default 0 (aggregate_df a !! term) + default 0 (aggregate_df b !! term)
  ∧ (aggregate_df (a ++ b) !! term = None ↔
     aggregate_df a !! term = None ∧ aggregate_df b !! term = None)
  ∧ (∀ documents, documents ≡ₚ a ++ b →
       aggregate_df documents = aggregate_df (a ++ b)).
Proof.
  intros Hlen. rewrite length_app in Hlen.
  pose proof (document_frequency_le term a) as Hla.
  pose proof (document_frequency_le term b) as Hlb.
  rewrite !aggregate_df_lookup, document_frequency_app.
  rewrite !Z.mod_small by lia.
  split; [|split].
  - repeat case_decide; simpl; lia.
  - repeat case_decide; split; try done; try lia; intros [? ?]; done.
  - intros documents Hperm. apply map_eq. intros t.
    rewrite !aggregate_df_lookup.
    by rewrite (document_frequency_perm t _ _ Hperm).
Qed.

(** ** Further results: the queue *)

(** X9.  How push and pop compose on a queue whose buffer is within its
    capacity.  A push on an empty queue followed by a pop gives back the
    item and the queue as it was.  On a queue that is not empty, a push and
    a pop can be done in either order: the same item is popped and the
    same queue results.  After a pop, one push always has room, which is
    how a waiting producer is released. *)
Theorem push_pop_compose {T} (q : blocking_queue T) (item : T) :
  Z.of_nat (length (_buffer q)) ≤ _size q →
  (∀ q1, _buffer q = [] → push item q = Some q1 → pop q1 = Some (item, q))
  ∧ (∀ q1 front q2,
       push item q = Some q1 → pop q = Some (front, q2) →
       ∃ q3, pop q1 = Some (front, q3) ∧ push item q2 = Some q3)
  ∧ (∀ front q2, pop q = Some (front, q2) →
       ∃ q3, push item q2 = Some q3
             ∧ _buffer q3 = _buffer q2 ++ [item]
             ∧ Z.of_nat (length (_buffer q3)) ≤ _size q3).
Proof.
  intros Hbound. destruct q as [size buffer]. simpl in *.
  split; [|split].
  - intros q1 -> Hpush. apply push_Some in Hpush as [_ ->]. done.
  - intros q1 front q2 Hpush Hpop.
    apply push_Some in Hpush as [Hroom ->].
    apply pop_Some in Hpop as [Hbuf Hsize]. simpl in *.
    destruct q2 as [size2 rest]. simpl in *. subst. simpl in *.
    eexists. split; [done|]. apply push_Some. simpl in *. split; [lia|done].
  - intros front q2 Hpop. apply pop_Some in Hpop as [Hbuf Hsize].
    destruct q2 as [size2 rest]. simpl in *. subst. simpl in *.
    eexists. split; [|split].
    + apply push_Some. simpl. split; [lia|done].
    + done.
    + simpl. rewrite length_app. simpl. lia.
Qed.

(** X10.  A queue constructed with capacity zero is inert: no push on it
    ever completes, so no pop does either, and its history stays empty. *)
Theorem zero_capacity_queue_is_inert {T} (size : Z)
    (history : list (queue_event T)) (q : blocking_queue T) :
  size ≤ 0 →
  queue_run (new_queue size) history q →
  history = [] ∧ q = new_queue size
  ∧ (∀ item : T, push item q = None) ∧ pop q = None.
Proof.
  intros Hsize Hrun.
  assert (history = [] ∧ q = new_queue size) as [-> ->].
  { induction Hrun as [|history q e q' _ IH Hstep]; [done|].
    destruct IH as [-> Hq]. rewrite Hq in Hstep.
    inversion Hstep as [? item ? Hpush|? item ? Hpop]; subst.
    - apply push_Some in Hpush as [Hroom _]. simpl in Hroom. lia.
    - by apply pop_Some in Hpop as [? _]. }
  split; [done|]. split; [done|]. split; [|done].
  intros item. apply push_None. simpl. lia.
Qed.

(** ** Further results: invariants of the running system *)

Lemma step_cleared_inv (s s' : system) (e : event) :
  step s e s' → cleared_inv s →
  cleared_inv s'
  ∧ match e with
    | Push item | Pop _ item => cleared item
    | Score _ _ buffer _ => cleared buffer
    | Tau | Join _ => True
    end.
Proof.
  unfold cleared_inv.
  destruct 1 as [toks urls n Hpc|b toks urls n q' Hpc Hpush|k c q' Hpc Hk Hpush
    |k c Hpc Hk|j c Hpc Hj|j c Hpc Hj|i b q' Hi Hpop|i b d todo Hi|i b Hi];
    intros (Hbuf & Hcons & Hmain).
  - destruct (read_candidate_turn toks urls n s)
      as (Hpc' & _ & _ & _ & _ & _ & Hq & Hc & _).
    rewrite Hpc', Hq, Hc. split; [|done]. split; [done|]. split; [done|].
    unfold turn. destruct toks as [|v toks]; simpl; [done|].
    destruct urls as [|u urls]; simpl; [done|].
    destruct (decide (v = ∅)); simpl; [done|].
    by destruct (wordvec_empty _).
  - rewrite Hpc in Hmain. apply push_Some in Hpush as [_ ->]. simpl.
    split; [|done]. split; [|done]. apply Forall_app. split; [done|].
    by constructor.
  - apply push_Some in Hpush as [_ ->]. simpl.
    split; [|done]. split; [|done]. apply Forall_app. split; [done|].
    by constructor.
  - simpl. done.
  - simpl. done.
  - split; [|done]. by destruct c.
  - simpl. apply pop_Some in Hpop as [Hfront _]. rewrite Hfront in Hbuf.
    apply Forall_cons in Hbuf as [Hb Hrest].
    split; [|done]. split; [done|]. split; [|by destruct (main_thread s)].
    apply Forall_insert; [done|]. by destruct (wordvec_empty b).
  - simpl. rewrite Forall_lookup in Hcons. pose proof (Hcons i _ Hi) as Hb.
    simpl in Hb. split; [|done]. split; [done|].
    split; [|by destruct (main_thread s)].
    apply Forall_insert; [by apply Forall_lookup|done].
  - simpl. split; [|done]. split; [done|].
    split; [|by destruct (main_thread s)].
    by apply Forall_insert.
Qed.

Lemma pops_snoc (events : list event) (e : event) :
  pops (events ++ [e])
    = pops events ++ match e with Pop _ item => [item] | _ => [] end.
Proof. unfold pops. rewrite omap_app. by destruct e. Qed.

Lemma run_cleared_inv (s0 s : system) (events : list event) :
  run s0 events s → cleared_inv s0 →
  cleared_inv s ∧ Forall cleared (pushes events) ∧ Forall cleared (pops events).
Proof.
  induction 1 as [|events s t e s' _ IH Hstep].
  { intros H0. split; [done|]. split; constructor. }
  intros H0. destruct (IH H0) as (Hinv & Hpushes & Hpops).
  apply thread_step_step in Hstep.
  destruct (step_cleared_inv _ _ _ Hstep Hinv) as [Hinv' He].
  split; [done|]. rewrite pushes_snoc, pops_snoc, !Forall_app.
  split; (split; [done|]); destruct e; by repeat constructor.
Qed.

(** X11.  The raw term counts never reach the consumers.  After a first
    phase that succeeded, in every state of every run of the second phase
    every reference document, every document in the buffer, every document
    a consumer is scoring and the document the main thread is about to
    push has an empty [vocab], and so has everything that was ever pushed
    or popped. *)
Theorem raw_vocab_never_reaches_consumers (ttoks : list (gmap N Z))
    (turls : list string) (c : corpus) (etoks : list (gmap N Z))
    (eurls : list string) (thr : float) (W : nat)
    (events : list event) (s : system) :
  load_corpus ttoks turls = inr c →
  run (start c etoks eurls thr W) events s →
  Forall cleared (documents s)
  ∧ cleared_inv s
  ∧ Forall cleared (pushes events)
  ∧ Forall cleared (pops events).
Proof.
  intros Hload Hrun. split.
  - destruct (run_frame _ _ _ Hrun) as (-> & _). simpl.
    destruct (decide (length ttoks ≤ length turls)%nat) as [Hlen|Hlen].
    + rewrite load_corpus_paired in Hload by done. injection Hload as <-.
      simpl. unfold transform_documents. apply Forall_fmap.
      by apply Forall_true.
    + by rewrite load_corpus_short in Hload by lia.
  - apply (run_cleared_inv _ _ _ Hrun). split; [done|]. split; [|done].
    simpl. by apply Forall_replicate.
Qed.

Lemma pushed_items_queue_history (events : list event) :
  pushed_items (queue_history events) = pushes events.
Proof.
  induction events as [|e events IH]; [done|].
  destruct e; simpl; by rewrite ?IH; try (unfold pushed_items; simpl; f_equal).
Qed.

Lemma popped_items_queue_history (events : list event) :
  popped_items (queue_history events) = pops events.
Proof.
  induction events as [|e events IH]; [done|].
  destruct e; simpl; by rewrite ?IH; try (unfold popped_items; simpl; f_equal).
Qed.

Lemma scoring_le_length (ws : list worker) : (scoring ws ≤ length ws)%nat.
Proof.
  induction ws as [|w ws IH]; [done|]. unfold scoring in *. simpl.
  destruct w; lia.
Qed.

(** X12.  Back-pressure.  In every state of every run, what the main
    thread has pushed is what the consumers have popped followed by what
    is in the buffer; the buffer holds at most [4 * W] documents, so the
    main thread is never more than [4 * W] documents ahead of the
    consumers, and with at most [W] candidates being scored no more than
    [5 * W] documents are on their way at any time, however long the
    candidate stream is. *)
Theorem candidates_in_flight_are_bounded (c : corpus) (toks : list (gmap N Z))
    (urls : list string) (thr : float) (W : nat)
    (events : list event) (s : system) :
  run (start c toks urls thr W) events s →
  pushes events = pops events ++ _buffer (queue s)
  ∧ (length (_buffer (queue s)) ≤ 4 * W)%nat
  ∧ (length (pushes events) ≤ length (pops events) + 4 * W)%nat
  ∧ (scoring (consumers s) ≤ W)%nat
  ∧ (length (_buffer (queue s)) + scoring (consumers s) ≤ 5 * W)%nat.
Proof.
  intros Hrun.
  pose proof (run_queue_run _ _ _ Hrun) as Hqueue. simpl in Hqueue.
  pose proof (queue_run_conservation _ _ _ Hqueue) as Hcons.
  pose proof (queue_run_bounded _ _ _ Hqueue) as Hbound.
  pose proof (queue_run_size _ _ _ Hqueue) as Hsize.
  simpl in Hcons, Hbound, Hsize.
  rewrite pushed_items_queue_history, popped_items_queue_history in Hcons.
  destruct (run_frame _ _ _ Hrun) as (_ & _ & _ & _ & Hlen & _).
  simpl in Hlen. rewrite length_replicate in Hlen.
  pose proof (scoring_le_length (consumers s)) as Hscoring.
  assert (length (_buffer (queue s)) ≤ 4 * W)%nat as Hbuf.
  { assert (Z.of_nat (length (_buffer (queue s)))
            ≤ (Z.of_nat W * 4) `mod` SIZE_MOD) as Hle.
    { rewrite <- Hsize. apply Hbound. by apply Z.mod_pos_bound. }
    pose proof (Z.mod_le (Z.of_nat W * 4) SIZE_MOD) as Hmod.
    unfold SIZE_MOD in *. lia. }
  split; [done|]. split; [done|]. split; [|split; [lia|lia]].
  rewrite Hcons, length_app. lia.
Qed.

Lemma running_le_length (ws : list worker) : (running ws ≤ length ws)%nat.
Proof.
  induction ws as [|w ws IH]; [done|]. unfold running in *. simpl.
  destruct w; lia.
Qed.

Lemma running_all (ws : list worker) :
  running ws = length ws → Forall (λ w, w ≠ WExit) ws.
Proof.
  induction ws as [|w ws IH]; [constructor|].
  pose proof (running_le_length ws) as Hle.
  unfold running in *. simpl. intros Hrun.
  destruct w; (constructor; [done|apply IH; lia]) || lia.
Qed.

(** X13.  While the main thread is in the candidate loop, no consumer has
    left its loop, there is no poison in the buffer and none was ever
    popped: a consumer only stops once [stop()] has begun, so no candidate
    can be left without a consumer to score it. *)
Theorem consumers_stay_until_stop (c : corpus) (toks : list (gmap N Z))
    (urls : list string) (thr : float) (W : nat)
    (events : list event) (s : system) :
  run (start c toks urls thr W) events s →
  in_candidate_loop s →
  Forall (λ w, w ≠ WExit) (consumers s)
  ∧ length (consumers s) = W
  ∧ Forall (λ item, wordvec_empty item = false) (_buffer (queue s))
  ∧ Forall (λ item, wordvec_empty item = false) (pushes events)
  ∧ ∀ i, poison_pops i events = 0%nat.
Proof.
  intros Hrun Hloop.
  pose proof (run_shutdown_inv _ _ _ Hrun (start_shutdown_inv c toks urls thr W))
    as Hinv.
  pose proof Hinv as (Hlen & Hrunning & Hmain).
  destruct (run_frame _ _ _ Hrun) as (_ & _ & _ & Hn & _).
  simpl in Hn. rewrite Hn in Hlen.
  pose proof (running_le_length (consumers s)) as Hle.
  assert (pending_poison s = W) as Hpending.
  { unfold pending_poison, in_candidate_loop in *.
    by destruct (main_thread s). }
  clear Hinv. pose proof (run_shutdown_inv _ _ _ Hrun
    (start_shutdown_inv c toks urls thr W)) as Hinv.
  assert (Forall (λ w, w ≠ WExit) (consumers s)) as Hall.
  { apply running_all. lia. }
  pose proof (run_fifo_inv _ _ _ Hrun (start_shutdown_inv c toks urls thr W)
    (start_fifo_inv c toks urls thr W)) as (ahead & k & Hbuf & Hahead & Hk & _).
  assert (k = 0%nat) as ->.
  { unfold in_candidate_loop in Hloop. by destruct (main_thread s). }
  simpl in Hbuf. rewrite app_nil_r in Hbuf.
  split; [done|]. split; [done|]. split; [by rewrite Hbuf|]. split.
  - destruct (run_plan _ _ _ Hrun) as (Hpushes & _).
    rewrite start_plan in Hpushes. simpl in Hpushes.
    pose proof (candidate_loop_not_poison (c_documents c) (c_df c) toks urls 0)
      as Hplanned.
    assert (poisons (pushes events) = 0%nat) as Hnone.
    { pose proof (f_equal poisons Hpushes) as Hp.
      rewrite !poisons_app, (poisons_candidates _ Hplanned),
        poisons_replicate in Hp.
      pose proof (plan_poisons s Hinv) as Hplan. lia. }
    clear -Hnone. induction (pushes events) as [|item l IH]; [constructor|].
    unfold poisons in *. simpl in Hnone.
    destruct (wordvec_empty item) eqn:Hitem; [lia|].
    constructor; [done|]. apply IH. lia.
  - intros i. pose proof (run_poison_pops _ _ _ i Hrun) as Hpops.
    rewrite Forall_lookup in Hall.
    destruct (consumers s !! i) as [w|] eqn:Hi.
    + specialize (Hall i w Hi). simpl in Hpops.
      destruct w; try done; simpl in Hpops; lia.
    + simpl in Hpops. lia.
Qed.

End Properties.

(** * The properties at work on the examples *)

Lemma calculate_alignment_shared_sum_witness :
  sorted_by_hash (wordvec left_example)
  ∧ sorted_by_hash (wordvec right_example)
  ∧ calculate_alignment left_example right_example = 29
  ∧ calculate_alignment right_example left_example = 29.
Proof.
  assert (sorted_by_hash (wordvec left_example)) as Hl.
  { vm_compute. repeat constructor. }
  assert (sorted_by_hash (wordvec right_example)) as Hr.
  { vm_compute. repeat constructor. }
  destruct (calculate_alignment_shared_sum left_example right_example Hl Hr)
    as [Hsum Hsym].
  split; [exact Hl|]. split; [exact Hr|]. split.
  - rewrite Hsum. vm_compute. reflexivity.
  - rewrite <- Hsym.
    + rewrite Hsum. vm_compute. reflexivity.
    + intros x y. apply Z.mul_comm.
Defined.

Lemma aggregate_df_counts_documents_witness :
  Z.of_nat (length three_documents) < SIZE_MOD
  ∧ aggregate_df three_documents !! 7%N = Some 2
  ∧ aggregate_df three_documents !! 9%N = None.
Proof.
  assert (Z.of_nat (length three_documents) < SIZE_MOD) as Hlen.
  { reflexivity. }
  split; [exact Hlen|]. split.
  - destruct (aggregate_df_counts_documents three_documents 7%N Hlen)
      as (Hcount & _).
    rewrite Hcount. vm_compute. reflexivity.
  - destruct (aggregate_df_counts_documents three_documents 9%N Hlen)
      as (Hcount & _).
    rewrite Hcount. vm_compute. reflexivity.
Defined.

Lemma queue_example_run :
  queue_run (new_queue 2) queue_example (new_queue 2).
Proof.
  apply (queue_replay_run
    [DoPush 10%nat; DoPush 20%nat; DoPop; DoPush 30%nat; DoPop; DoPop]).
  vm_compute. reflexivity.
Defined.

Lemma queue_nothing_lost_fifo_witness :
  queue_run (new_queue 2) queue_example (new_queue 2)
  ∧ popped_items queue_example = [10; 20; 30]%nat
  ∧ pushed_items queue_example = [10; 20; 30]%nat.
Proof.
  split; [exact queue_example_run|].
  destruct (queue_nothing_lost_fifo 2 queue_example (new_queue 2)
    queue_example_run) as (_ & _ & _ & _ & Hdrained & _).
  destruct (Hdrained eq_refl) as [Hsame _].
  split; [reflexivity|]. rewrite <- Hsame. reflexivity.
Defined.

Lemma queue_capacity_bound_witness :
  0 ≤ 2
  ∧ queue_run (new_queue 2) (take 2 queue_example)
      {| _size := 2; _buffer := [10; 20]%nat |}
  ∧ push 30%nat {| _size := 2; _buffer := [10; 20]%nat |} = None.
Proof.
  assert (queue_run (new_queue 2) (take 2 queue_example)
            {| _size := 2; _buffer := [10; 20]%nat |}) as Hrun.
  { apply (queue_replay_run [DoPush 10%nat; DoPush 20%nat]).
    vm_compute. reflexivity. }
  assert (0 ≤ 2) as Hsize by lia.
  split; [exact Hsize|]. split; [exact Hrun|].
  destruct (queue_capacity_bound 2 _ _ Hsize Hrun) as (_ & _ & Hfull & _).
  apply Hfull. simpl. lia.
Defined.

Lemma small_run_is_a_run : run small_start small_run.1 small_run.2.
Proof. apply drive_run. Defined.

Lemma degenerate_run_is_a_run :
  run degenerate_start degenerate_run.1 degenerate_run.2.
Proof. apply drive_run. Defined.

Lemma shutdown_protocol_witness :
  (0 < 4)%nat ∧ Z.of_nat 4 * 4 < SIZE_MOD
  ∧ run small_start small_run.1 small_run.2
  ∧ consumers small_run.2 = replicate 4 WExit
  ∧ joins small_run.1 = [0; 1; 2; 3]%nat
  ∧ poisons (pushes small_run.1) = 4%nat
  ∧ _buffer (queue small_run.2) = []
  ∧ ∀ i, (i < 4)%nat → poison_pops i small_run.1 = 1%nat.
Proof.
  assert (0 < 4)%nat as HW by lia.
  assert (Z.of_nat 4 * 4 < SIZE_MOD) as Hsmall by reflexivity.
  split; [exact HW|]. split; [exact Hsmall|].
  split; [exact small_run_is_a_run|].
  destruct (shutdown_protocol (loaded small_input)
    (english_tokens small_input) (english_urls small_input)
    (opt_threshold small_input) 4 small_run.1 small_run.2 HW Hsmall
    small_run_is_a_run)
    as (_ & _ & _ & Hpoison & _ & _ & _ & _ & _ & Hexit).
  assert (main_thread small_run.2 = MExit 0) as Hpc.
  { vm_compute. reflexivity. }
  destruct (Hexit 0 Hpc) as (Hcons & _ & Hjoins & Hpops & Hbuf & _).
  split; [exact Hcons|]. split; [exact Hjoins|]. split; [|split].
  - unfold pending_poison in Hpoison. rewrite Hpc in Hpoison.
    rewrite Nat.add_0_r in Hpoison. exact Hpoison.
  - exact Hbuf.
  - exact Hpops.
Defined.

Lemma consumer_scores_whole_corpus_witness :
  (0 < 4)%nat
  ∧ run small_start small_run.1 small_run.2
  ∧ hits small_run.2 = 3
  ∧ hit_count small_run.1 = 3%nat.
Proof.
  assert (0 < 4)%nat as HW by lia.
  split; [exact HW|]. split; [exact small_run_is_a_run|].
  destruct (consumer_scores_whole_corpus (loaded small_input)
    (english_tokens small_input) (english_urls small_input)
    (opt_threshold small_input) 4 small_run.1 small_run.2 0 HW
    small_run_is_a_run) as (_ & Hhits & _ & Hexit).
  assert (main_thread small_run.2 = MExit 0) as Hpc.
  { vm_compute. reflexivity. }
  specialize (Hexit 0 Hpc).
  assert (hit_count small_run.1 = 3%nat) as Hcount.
  { rewrite Hexit. vm_compute. reflexivity. }
  split; [|exact Hcount].
  rewrite Hhits, Hcount. reflexivity.
Defined.

Lemma small_input_loads :
  load_corpus (translated_tokens small_input) (translated_urls small_input)
    = inr (loaded small_input).
Proof. vm_compute. reflexivity. Defined.

Lemma small_candidates_pass :
  Forall2
    (passes_guards (c_documents (loaded small_input))
       (c_df (loaded small_input)))
    (english_urls small_input) (english_tokens small_input).
Proof.
  repeat constructor.
  - intros Hempty. apply (f_equal (λ m : gmap N Z, m !! 1%N)) in Hempty.
    vm_compute in Hempty. discriminate Hempty.
  - intros Hempty. apply (f_equal (λ m : gmap N Z, m !! 3%N)) in Hempty.
    vm_compute in Hempty. discriminate Hempty.
  - intros Hempty. apply (f_equal (λ m : gmap N Z, m !! 1%N)) in Hempty.
    vm_compute in Hempty. discriminate Hempty.
Defined.

Lemma df_fixed_before_candidates_witness :
  load_corpus (translated_tokens small_input) (translated_urls small_input)
    = inr (loaded small_input)
  ∧ run small_start small_run.1 small_run.2
  ∧ df small_run.2 = aggregate_df
      (zip_with as_read (translated_urls small_input)
         (translated_tokens small_input))
  ∧ df small_run.2 !! 2%N = Some 2
  ∧ df small_run.2 !! 9%N = None
  ∧ main_thread small_run.2 = MExit 0
  ∧ pushes small_run.1
    = [scored "x" [(1%N, 2); (3%N, 2)];
       scored "y" [(3%N, 10); (9%N, 3)];
       scored "z" [(1%N, 2)]] ++ replicate 4 poison
  ∧ hit_count small_run.1 = 3%nat.
Proof.
  split; [exact small_input_loads|]. split; [exact small_run_is_a_run|].
  destruct (df_fixed_before_candidates (translated_tokens small_input)
    (translated_urls small_input) (loaded small_input)
    (english_tokens small_input) (english_urls small_input)
    (opt_threshold small_input) 4 small_run.1 small_run.2
    small_input_loads small_run_is_a_run)
    as (Hbuilt & _ & Hdf & _ & _ & _ & _ & _ & Hpassed & Hexit).
  assert (main_thread small_run.2 = MExit 0) as Hpc.
  { vm_compute. reflexivity. }
  split; [by rewrite Hdf, Hbuilt|].
  split; [rewrite Hdf, Hbuilt; vm_compute; reflexivity|].
  split; [rewrite Hdf, Hbuilt; vm_compute; reflexivity|].
  split; [exact Hpc|]. split.
  - destruct (Hpassed (english_urls small_input) (english_tokens small_input)
      [] [] eq_refl eq_refl small_candidates_pass) as (_ & Hprefix).
    + lia.
    + reflexivity.
    + destruct (Hprefix 0 Hpc) as (_ & Hwhole).
      destruct (Hwhole eq_refl) as (_ & Hall).
      rewrite Hall. reflexivity.
  - destruct (Hexit 0) as (planned & Hplanned & Hall & Hhits); [lia|exact Hpc|].
    destruct (Hpassed (english_urls small_input) (english_tokens small_input)
      [] [] eq_refl eq_refl small_candidates_pass) as (_ & Hprefix).
    + lia.
    + reflexivity.
    + destruct (Hprefix 0 Hpc) as (_ & Hwhole).
      destruct (Hwhole eq_refl) as (_ & Hall').
      rewrite Hall' in Hall. apply app_inv_tail in Hall.
      rewrite Hhits, <- Hall. vm_compute. reflexivity.
Defined.

Lemma degenerate_input_loads :
  load_corpus (translated_tokens degenerate_input)
    (translated_urls degenerate_input)
    = inr (loaded degenerate_input).
Proof. vm_compute. reflexivity. Defined.

Lemma first_candidate_passes :
  Forall2
    (passes_guards (c_documents (loaded degenerate_input))
       (c_df (loaded degenerate_input)))
    ["x"] [bag [(1%N, 1); (3%N, 1)]].
Proof.
  constructor; [|constructor]. split.
  - intros Hempty. apply (f_equal (λ m : gmap N Z, m !! 1%N)) in Hempty.
    vm_compute in Hempty. discriminate Hempty.
  - vm_compute. reflexivity.
Defined.

Lemma degenerate_candidate_is_fatal_witness :
  (0 < 4)%nat ∧ Z.of_nat 4 * 4 < SIZE_MOD
  ∧ Forall2
      (passes_guards (c_documents (loaded degenerate_input))
         (c_df (loaded degenerate_input)))
      ["x"] [bag [(1%N, 1); (3%N, 1)]]
  ∧ wordvec (calculate_tfidf (as_read "w" (bag [(2%N, 4)]))
               (Z.of_nat (length (c_documents (loaded degenerate_input))))
               (c_df (loaded degenerate_input))) = []
  ∧ run degenerate_start degenerate_run.1 degenerate_run.2
  ∧ main_thread degenerate_run.2 = MExit 5
  ∧ cerr degenerate_run.2
    = [ReadDocuments 2; AggregatedDF; CalculatedTFIDF; EmptyWordVec 2]
  ∧ cout degenerate_run.2 = []
  ∧ length (pushes degenerate_run.1) = 5%nat
  ∧ consumers degenerate_run.2 = replicate 4 WExit.
Proof.
  assert (0 < 4)%nat as HW by lia.
  assert (Z.of_nat 4 * 4 < SIZE_MOD) as Hsmall by reflexivity.
  assert (wordvec (calculate_tfidf (as_read "w" (bag [(2%N, 4)]))
            (Z.of_nat (length (c_documents (loaded degenerate_input))))
            (c_df (loaded degenerate_input))) = []) as Hempty.
  { vm_compute. reflexivity. }
  assert (main_thread degenerate_run.2 = MExit 5) as Hpc.
  { vm_compute. reflexivity. }
  split; [exact HW|]. split; [exact Hsmall|].
  split; [exact first_candidate_passes|]. split; [exact Hempty|].
  split; [exact degenerate_run_is_a_run|]. split; [exact Hpc|].
  destruct (degenerate_candidate_is_fatal (loaded degenerate_input)
    ["x"] [bag [(1%N, 1); (3%N, 1)]] "w" (bag [(2%N, 4)])
    [bag [(1%N, 1)]] ["z"] (opt_threshold degenerate_input) 4
    degenerate_run.1 degenerate_run.2 HW Hsmall first_candidate_passes
    Hempty degenerate_run_is_a_run) as (_ & _ & _ & Hexit).
  destruct (Hexit 5 Hpc) as (_ & Hcerr & Hcout & Hpushes & _ & Hcons).
  split; [|split; [exact Hcout|split; [|exact Hcons]]].
  - rewrite Hcerr. vm_compute. reflexivity.
  - rewrite Hpushes. reflexivity.
Defined.

Lemma twin_run_is_a_run : run twin_start twin_run.1 twin_run.2.
Proof. apply drive_run. Defined.

Lemma twin_input_loads :
  load_corpus (translated_tokens twin_input) (translated_urls twin_input)
    = inr (loaded twin_input).
Proof. vm_compute. reflexivity. Defined.

Lemma first_twin_candidate_passes :
  Forall2
    (passes_guards (c_documents (loaded twin_input)) (c_df (loaded twin_input)))
    ["x"] [bag [(1%N, 1); (3%N, 1)]].
Proof.
  constructor; [|constructor]. split.
  - intros Hempty. apply (f_equal (λ m : gmap N Z, m !! 1%N)) in Hempty.
    vm_compute in Hempty. discriminate Hempty.
  - vm_compute. reflexivity.
Defined.

Lemma empty_guard_only_on_candidates_witness :
  (length (translated_tokens small_input)
   ≤ length (translated_urls small_input))%nat
  ∧ (∃ c,
      load_corpus (translated_tokens small_input)
        (translated_urls small_input) = inr c
      ∧ c_cerr c = [ReadDocuments 3; AggregatedDF; CalculatedTFIDF]
      ∧ wordvec <$> c_documents c !! 2%nat = Some [])
  ∧ (length (translated_tokens twin_input)
     ≤ length (translated_urls twin_input))%nat
  ∧ (∃ c,
      load_corpus (translated_tokens twin_input)
        (translated_urls twin_input) = inr c
      ∧ c_cerr c = [ReadDocuments 3; AggregatedDF; CalculatedTFIDF]
      ∧ c_documents c !! 2%nat = Some (scored "c" []))
  ∧ wordvec (calculate_tfidf (as_read "c" (bag [(2%N, 4)]))
               (Z.of_nat (length (c_documents (loaded twin_input))))
               (c_df (loaded twin_input))) = []
  ∧ run twin_start twin_run.1 twin_run.2
  ∧ main_thread twin_run.2 = MExit 5
  ∧ cout twin_run.2 = []
  ∧ (length twin_run.1 + steps_left twin_run.2 ≤ steps_left twin_start)%nat
  ∧ main twin_input
      {| status := 5;
         written_cerr :=
           [ReadDocuments 3; AggregatedDF; CalculatedTFIDF; EmptyWordVec 2];
         written_cout := [] |}
  ∧ ∀ out, main twin_input out → status out = 5 ∧ written_cout out = [].
Proof.
  assert (length (translated_tokens small_input)
          ≤ length (translated_urls small_input))%nat as Hlen.
  { simpl. lia. }
  assert (length (translated_tokens twin_input)
          ≤ length (translated_urls twin_input))%nat as Hlen'.
  { simpl. lia. }
  assert (wordvec (calculate_tfidf (as_read "c" (bag [(2%N, 4)]))
            (Z.of_nat (length (c_documents (loaded twin_input))))
            (c_df (loaded twin_input))) = []) as Hempty.
  { vm_compute. reflexivity. }
  assert (main_thread twin_run.2 = MExit 5) as Hpc.
  { vm_compute. reflexivity. }
  split; [exact Hlen|]. split.
  { destruct (empty_guard_only_on_candidates (translated_tokens small_input)
      (translated_urls small_input) Hlen)
      as ((c & Hload & Hcerr & Hdocs & _) & _).
    exists c. split; [exact Hload|]. split; [exact Hcerr|].
    rewrite Hdocs. vm_compute. reflexivity. }
  split; [exact Hlen'|].
  destruct (empty_guard_only_on_candidates (translated_tokens twin_input)
    (translated_urls twin_input) Hlen')
    as ((c & Hload & Hcerr & Hdocs & _) & Hexit & Hends & Hmain).
  split.
  { exists c. split; [exact Hload|]. split; [exact Hcerr|].
    rewrite twin_input_loads in Hload. injection Hload as <-.
    vm_compute. reflexivity. }
  split; [exact Hempty|]. split; [exact twin_run_is_a_run|].
  split; [exact Hpc|]. split; [|split; [|split]].
  - destruct (Hexit (loaded twin_input) ["x"] [bag [(1%N, 1); (3%N, 1)]]
      "c" (bag [(2%N, 4)]) [bag [(1%N, 1)]] ["z"] (opt_threshold twin_input)
      4%nat twin_run.1 twin_run.2 5) as (_ & Hcout).
    + lia.
    + exact first_twin_candidate_passes.
    + exact Hempty.
    + exact twin_run_is_a_run.
    + exact Hpc.
    + exact Hcout.
  - destruct (Hends (loaded twin_input) ["x"] [bag [(1%N, 1); (3%N, 1)]]
      "c" (bag [(2%N, 4)]) [bag [(1%N, 1)]] ["z"] (opt_threshold twin_input)
      4%nat twin_run.1 twin_run.2) as (Hbound & _).
    + lia.
    + reflexivity.
    + exact first_twin_candidate_passes.
    + exact Hempty.
    + exact twin_run_is_a_run.
    + exact Hbound.
  - apply (Hmain (loaded twin_input) ["x"] [bag [(1%N, 1); (3%N, 1)]]
      "c" (bag [(2%N, 4)]) [bag [(1%N, 1)]] ["z"] (opt_threshold twin_input)).
    + exact twin_input_loads.
    + exact first_twin_candidate_passes.
    + exact Hempty.
    + vm_compute. reflexivity.
  - intros out Hout.
    apply (Hmain (loaded twin_input) ["x"] [bag [(1%N, 1); (3%N, 1)]]
      "c" (bag [(2%N, 4)]) [bag [(1%N, 1)]] ["z"] (opt_threshold twin_input))
      in Hout.
    + subst out. split; reflexivity.
    + exact twin_input_loads.
    + exact first_twin_candidate_passes.
    + exact Hempty.
Defined.

Lemma small_input_outcome :
  main small_input
    {| status := 0;
       written_cerr := [ReadDocuments 3; AggregatedDF; CalculatedTFIDF];
       written_cout := [3] |}.
Proof.
  assert (main_thread small_run.2 = MExit 0) as Hpc.
  { vm_compute. reflexivity. }
  pose proof (main_phase_2 small_input (loaded small_input) small_run.1
    small_run.2 0 small_input_loads small_run_is_a_run Hpc) as Hmain.
  assert (cerr small_run.2 = [ReadDocuments 3; AggregatedDF; CalculatedTFIDF])
    as Hcerr.
  { vm_compute. reflexivity. }
  assert (cout small_run.2 = [3]) as Hcout.
  { vm_compute. reflexivity. }
  rewrite Hcerr, Hcout in Hmain. exact Hmain.
Defined.


(** C8 as stated does not hold of a reference document.  The third
    reference document of [small_input] has no term; its transform yields
    an empty weight vector; it is loaded into the corpus without a word
    on [cerr], and every run is a success that prints the count. *)
Lemma degenerate_reference_is_accepted :
  wordvec (calculate_tfidf (as_read "c" (bag [])) 3
             (c_df (loaded small_input))) = []
  ∧ (wordvec <$> c_documents (loaded small_input) !! 2%nat) = Some []
  ∧ load_corpus (translated_tokens small_input) (translated_urls small_input)
    = inr (loaded small_input)
  ∧ main small_input
      {| status := 0;
         written_cerr := [ReadDocuments 3; AggregatedDF; CalculatedTFIDF];
         written_cout := [3] |}
  ∧ ∀ out, main small_input out →
      status out = 0
      ∧ written_cerr out = [ReadDocuments 3; AggregatedDF; CalculatedTFIDF].
Proof.
  split; [vm_compute; reflexivity|]. split; [vm_compute; reflexivity|].
  split; [exact small_input_loads|]. split; [exact small_input_outcome|].
  intros out Hout. apply main_expected in Hout. subst out.
  vm_compute. split; reflexivity.
Qed.

(** * The further results at work on the examples *)

Lemma small_run_exits : main_thread small_run.2 = MExit 0.
Proof. vm_compute. reflexivity. Defined.

Lemma single_run_is_a_run : run single_start single_run.1 single_run.2.
Proof. apply drive_run. Defined.

Lemma early_run_is_a_run : run small_start early_run.1 early_run.2.
Proof. apply drive_run. Defined.


Lemma every_pair_is_scored_once_witness :
  (0 < 4)%nat
  ∧ run small_start small_run.1 small_run.2
  ∧ main_thread small_run.2 = MExit 0
  ∧ scored_weight (λ _ _, 1%nat) small_run.1 = 9%nat.
Proof.
  assert (0 < 4)%nat as HW by lia.
  split; [exact HW|]. split; [exact small_run_is_a_run|].
  split; [exact small_run_exits|].
  destruct (every_pair_is_scored_once (loaded small_input)
    (english_tokens small_input) (english_urls small_input)
    (opt_threshold small_input) 4 small_run.1 small_run.2 0 HW
    small_run_is_a_run small_run_exits) as [_ Hcalls].
  rewrite Hcalls. vm_compute. reflexivity.
Defined.

Lemma outcome_is_schedule_independent_witness :
  (0 < 4)%nat ∧ (0 < 1)%nat
  ∧ run small_start small_run.1 small_run.2
  ∧ main_thread small_run.2 = MExit 0
  ∧ run single_start single_run.1 single_run.2
  ∧ main_thread single_run.2 = MExit 0
  ∧ cout small_run.2 = cout single_run.2
  ∧ hits small_run.2 = hits single_run.2
  ∧ hit_count small_run.1 = 3%nat.
Proof.
  assert (0 < 4)%nat as HW by lia.
  assert (0 < 1)%nat as HW' by lia.
  assert (main_thread single_run.2 = MExit 0) as Hpc'.
  { vm_compute. reflexivity. }
  split; [exact HW|]. split; [exact HW'|].
  split; [exact small_run_is_a_run|]. split; [exact small_run_exits|].
  split; [exact single_run_is_a_run|]. split; [exact Hpc'|].
  destruct (outcome_is_schedule_independent (loaded small_input)
    (english_tokens small_input) (english_urls small_input)
    (opt_threshold small_input) 4 1 small_run.1 single_run.1
    small_run.2 single_run.2 0 0 HW HW' small_run_is_a_run small_run_exits
    single_run_is_a_run Hpc') as (_ & _ & Hcout & _ & Hcount & Hhits).
  split; [exact Hcout|]. split; [exact Hhits|].
  rewrite Hcount. vm_compute. reflexivity.
Defined.



Lemma missing_reference_label_stops_early_witness :
  (length (translated_urls short_input)
   < length (translated_tokens short_input))%nat
  ∧ main short_input
      {| status := 2;
         written_cerr := [ErrorReadingUrlRef 1];
         written_cout := [] |}.
Proof.
  assert (length (translated_urls short_input)
          < length (translated_tokens short_input))%nat as Hshort.
  { simpl. lia. }
  split; [exact Hshort|].
  apply (missing_reference_label_stops_early short_input Hshort).
  reflexivity.
Defined.


Lemma degenerate_input_outcome :
  main degenerate_input
    {| status := 5;
       written_cerr :=
         [ReadDocuments 2; AggregatedDF; CalculatedTFIDF; EmptyWordVec 2];
       written_cout := [] |}.
Proof.
  assert (main_thread degenerate_run.2 = MExit 5) as Hpc.
  { vm_compute. reflexivity. }
  pose proof (main_phase_2 degenerate_input (loaded degenerate_input)
    degenerate_run.1 degenerate_run.2 5 degenerate_input_loads
    degenerate_run_is_a_run Hpc) as Hmain.
  assert (cerr degenerate_run.2
          = [ReadDocuments 2; AggregatedDF; CalculatedTFIDF; EmptyWordVec 2])
    as Hcerr.
  { vm_compute. reflexivity. }
  assert (cout degenerate_run.2 = []) as Hcout.
  { vm_compute. reflexivity. }
  rewrite Hcerr, Hcout in Hmain. exact Hmain.
Defined.

Lemma nothing_is_read_after_the_first_failure_witness :
  load_corpus (translated_tokens degenerate_input)
    (translated_urls degenerate_input) = inr (loaded degenerate_input)
  ∧ ¬ passes_guards (c_documents (loaded degenerate_input))
        (c_df (loaded degenerate_input)) "w" (bag [(2%N, 4)])
  ∧ main
      {| translated_tokens := translated_tokens degenerate_input;
         translated_urls := translated_urls degenerate_input;
         english_tokens := [bag [(1%N, 1); (3%N, 1)]; bag [(2%N, 4)]];
         english_urls := ["x"; "w"; "more"; "labels"];
         opt_threshold := opt_threshold degenerate_input |}
      {| status := 5;
         written_cerr :=
           [ReadDocuments 2; AggregatedDF; CalculatedTFIDF; EmptyWordVec 2];
         written_cout := [] |}.
Proof.
  assert (¬ passes_guards (c_documents (loaded degenerate_input))
            (c_df (loaded degenerate_input)) "w" (bag [(2%N, 4)])) as Hfail.
  { intros [_ Hwv]. vm_compute in Hwv. discriminate Hwv. }
  split; [exact degenerate_input_loads|]. split; [exact Hfail|].
  apply (nothing_is_read_after_the_first_failure degenerate_input
    (loaded degenerate_input) ["x"] [bag [(1%N, 1); (3%N, 1)]]
    "w" (bag [(2%N, 4)]) [bag [(1%N, 1)]] [] ["z"] ["more"; "labels"] _
    degenerate_input_loads first_candidate_passes Hfail eq_refl eq_refl).
  exact degenerate_input_outcome.
Defined.

Lemma df_entries_are_positive_and_bounded_witness :
  Z.of_nat (length three_documents) < SIZE_MOD
  ∧ aggregate_df three_documents !! 7%N = Some 2
  ∧ 1 ≤ 2 ≤ Z.of_nat (length three_documents)
  ∧ aggregate_df three_documents !! 9%N = None.
Proof.
  assert (Z.of_nat (length three_documents) < SIZE_MOD) as Hlen.
  { reflexivity. }
  assert (aggregate_df three_documents !! 7%N = Some 2) as H7.
  { vm_compute. reflexivity. }
  split; [exact Hlen|]. split; [exact H7|].
  destruct (df_entries_are_positive_and_bounded three_documents 7%N Hlen)
    as (Hentry & _).
  destruct (Hentry 2 H7) as [Hbounds _]. split; [exact Hbounds|].
  destruct (df_entries_are_positive_and_bounded three_documents 9%N Hlen)
    as (_ & Hnone & _).
  apply Hnone. repeat constructor.
Defined.

Lemma df_of_concatenation_adds_witness :
  Z.of_nat (length (take 2 three_documents ++ drop 2 three_documents))
    < SIZE_MOD
  ∧ default 0 (aggregate_df three_documents !! 8%N) = 1 + 1.
Proof.
  assert (Z.of_nat (length (take 2 three_documents ++ drop 2 three_documents))
          < SIZE_MOD) as Hlen.
  { reflexivity. }
  split; [exact Hlen|].
  destruct (df_of_concatenation_adds (take 2 three_documents)
    (drop 2 three_documents) 8%N Hlen) as (Hsum & _).
  change three_documents
    with (take 2 three_documents ++ drop 2 three_documents) at 1.
  rewrite Hsum. vm_compute. reflexivity.
Defined.

Lemma push_pop_compose_witness :
  Z.of_nat (length (_buffer {| _size := 2; _buffer := [10%nat] |})) ≤ 2
  ∧ ∃ q3,
      pop {| _size := 2; _buffer := [10; 20]%nat |} = Some (10%nat, q3)
      ∧ push 20%nat {| _size := 2; _buffer := [] |} = Some q3.
Proof.
  assert (Z.of_nat (length (_buffer {| _size := 2; _buffer := [10%nat] |})) ≤ 2)
    as Hbound.
  { simpl. lia. }
  split; [exact Hbound|].
  destruct (push_pop_compose {| _size := 2; _buffer := [10%nat] |} 20%nat Hbound)
    as (_ & Hcommute & _).
  apply (Hcommute {| _size := 2; _buffer := [10; 20]%nat |} 10%nat
    {| _size := 2; _buffer := [] |}); reflexivity.
Defined.

Lemma zero_capacity_queue_is_inert_witness :
  0 ≤ 0
  ∧ queue_run (new_queue 0) [] (new_queue (T := nat) 0)
  ∧ push 10%nat (new_queue 0) = None.
Proof.
  assert (0 ≤ 0) as Hsize by lia.
  assert (queue_run (new_queue 0) [] (new_queue (T := nat) 0)) as Hrun.
  { constructor. }
  split; [exact Hsize|]. split; [exact Hrun|].
  destruct (zero_capacity_queue_is_inert 0 [] (new_queue 0) Hsize Hrun)
    as (_ & _ & Hpush & _).
  apply Hpush.
Defined.

Lemma raw_vocab_never_reaches_consumers_witness :
  load_corpus (translated_tokens small_input) (translated_urls small_input)
    = inr (loaded small_input)
  ∧ run small_start small_run.1 small_run.2
  ∧ Forall cleared (documents small_run.2)
  ∧ Forall cleared (pops small_run.1).
Proof.
  split; [exact small_input_loads|]. split; [exact small_run_is_a_run|].
  destruct (raw_vocab_never_reaches_consumers (translated_tokens small_input)
    (translated_urls small_input) (loaded small_input)
    (english_tokens small_input) (english_urls small_input)
    (opt_threshold small_input) 4 small_run.1 small_run.2
    small_input_loads small_run_is_a_run) as (Hdocs & _ & _ & Hpops).
  split; [exact Hdocs|exact Hpops].
Defined.

Lemma candidates_in_flight_are_bounded_witness :
  run small_start early_run.1 early_run.2
  ∧ (length (pushes early_run.1) ≤ length (pops early_run.1) + 4 * 4)%nat
  ∧ (length (_buffer (queue early_run.2)) + scoring (consumers early_run.2)
     ≤ 5 * 4)%nat.
Proof.
  split; [exact early_run_is_a_run|].
  destruct (candidates_in_flight_are_bounded (loaded small_input)
    (english_tokens small_input) (english_urls small_input)
    (opt_threshold small_input) 4 early_run.1 early_run.2
    early_run_is_a_run) as (_ & _ & Hahead & _ & Hflight).
  split; [exact Hahead|exact Hflight].
Defined.

Lemma consumers_stay_until_stop_witness :
  run small_start early_run.1 early_run.2
  ∧ in_candidate_loop early_run.2
  ∧ Forall (λ w, w ≠ WExit) (consumers early_run.2)
  ∧ ∀ i, poison_pops i early_run.1 = 0%nat.
Proof.
  assert (in_candidate_loop early_run.2) as Hloop.
  { vm_compute. exact I. }
  split; [exact early_run_is_a_run|]. split; [exact Hloop|].
  destruct (consumers_stay_until_stop (loaded small_input)
    (english_tokens small_input) (english_urls small_input)
    (opt_threshold small_input) 4 early_run.1 early_run.2
    early_run_is_a_run Hloop) as (Hall & _ & _ & _ & Hpops).
  split; [exact Hall|exact Hpops].
Defined.
